(** * constrained_loaders: loader specifications and loader builders

  A shallow embedding of [constrained_loaders/abstraction.py] and
  [constrained_loaders/sa/loader_builder.py].

  The development has three layers.

  - [Py]: results, exceptions and a state-and-exception monad.  A Python
    call either returns or raises, and in both cases the mutations it
    made before stay in place; a computation is therefore a function
    from the state to an outcome paired with the state it leaves.
  - [Store]: the object store.  Dictionaries and lists are objects with
    an identity; [LoaderSpec.clone] and [LoaderSpecPiece.__init__] are
    about which containers are fresh and which objects are shared, so
    they are modelled over the store.
  - [Builder] and [SA]: the builder protocol
    ([ConfigurableLoaderBuilder]) and the SQLAlchemy builders.  Builders
    only read the spec, so these layers see it as immutable finite maps.
    [Probe] is a query that records its clauses, and [Example] a store
    with one spec in it; the examples run on them. *)

From stdpp Require Import base option list strings gmap.
From Stdlib Require Import ZArith Lia.

Open Scope Z_scope.
Open Scope string_scope.
Open Scope list_scope.

(* ===================================================================== *)
(** * Outcomes, exceptions and the monad of method bodies                *)
(* ===================================================================== *)

Module Py.

(** The exceptions that occur.  The first three are the not-found
    family the builder documentation calls [ExtensionNotFound];
    [ValueError] is the input-validation error; [BackendError] stands
    for whatever an external query object or a user supplied piece
    raises. *)
Inductive exn : Type :=
| ExtensionNotFound (name : string)
| SortNotFound (field : string)
| FilterNotFound (field operator : string)
| ValueError
| TypeError
| KeyError (key : string)
| NotImplementedError
| BackendError (code : nat).

Definition is_not_found (e : exn) : bool :=
  match e with
  | ExtensionNotFound _ | SortNotFound _ | FilterNotFound _ _ => true
  | _ => false
  end.

Definition is_validation_error (e : exn) : bool :=
  match e with
  | ValueError => true
  | _ => false
  end.

Inductive result (A : Type) : Type :=
| Ok (a : A)
| Raise (e : exn).
Arguments Ok {A} a.
Arguments Raise {A} e.

Definition raises {A} (r : result A) : bool :=
  match r with Ok _ => false | Raise _ => true end.

(** A method body over a mutable state [S]. *)
Definition M (S A : Type) : Type := S → result A * S.

Definition ret {S A} (a : A) : M S A := λ s, (Ok a, s).
Definition raise {S A} (e : exn) : M S A := λ s, (Raise e, s).
Definition bind {S A B} (m : M S A) (k : A → M S B) : M S B :=
  λ s, match m s with
       | (Ok a, s') => k a s'
       | (Raise e, s') => (Raise e, s')
       end.
Definition get {S} : M S S := λ s, (Ok s, s).
Definition put {S} (s : S) : M S unit := λ _, (Ok tt, s).
Definition lift_result {S A} (r : result A) : M S A := λ s, (r, s).

(** The state a computation leaves and the outcome it produces. *)
Definition run {S A} (m : M S A) (s : S) : result A * S := m s.
Definition outcome {S A} (m : M S A) (s : S) : result A := fst (m s).
Definition final {S A} (m : M S A) (s : S) : S := snd (m s).

(** [for x in xs: body x] *)
Fixpoint for_each {S A} (body : A → M S unit) (xs : list A) : M S unit :=
  match xs with
  | [] => ret tt
  | x :: rest => bind (body x) (λ _, for_each body rest)
  end.

End Py.
Import Py.

Declare Scope py_scope.
Delimit Scope py_scope with py.
Notation "x <- m ;; k" := (bind m (λ x, k))
(at level 100, m at next level, right associativity) : py_scope.
Notation "m ;;; k" := (bind m (λ _, k))
(at level 100, right associativity) : py_scope.
Open Scope py_scope.

(* ===================================================================== *)
(** * The object store                                                   *)
(* ===================================================================== *)

Module Store.

(** Objects are identified by their address; a fresh object gets the
    next address.  A value is what a variable, an attribute, a
    dictionary slot or a list slot holds. *)
Abbreviation addr := nat.

Inductive value : Type :=
| VNone
| VStr (s : string)
| VRef (a : addr).

(** Dictionaries keep their items in insertion order, as Python does;
    their keys are field, operator and extension names.  [OInstance]
    is an instance of a user class (a filter, a sort, an extension, a
    [DefaultSort]): for the store only its identity matters. *)
Inductive object : Type :=
| ODict (items : list (string * value))
| OList (elems : list value)
| OInstance (cls : string).

Abbreviation heap := (list object).

Global Instance value_eq_dec : EqDecision value.
Proof. solve_decision. Defined.

(** ** Dictionary items *)

Fixpoint items_get {A} (k : string) (items : list (string * A)) : option A :=
  match items with
  | [] => None
  | (k', v) :: rest => if decide (k = k') then Some v else items_get k rest
  end.

(** [d[k] = v]: an existing key keeps its place, a new key goes last. *)
Fixpoint items_set (k : string) (v : value) (items : list (string * value))
  : list (string * value) :=
  match items with
  | [] => [(k, v)]
  | (k', v') :: rest =>
      if decide (k = k') then (k, v) :: rest else (k', v') :: items_set k v rest
  end.

(** [del d[k]]: no item with key [k] is left. *)
Fixpoint items_del (k : string) (items : list (string * value))
  : list (string * value) :=
  match items with
  | [] => []
  | (k', v') :: rest =>
      if decide (k = k') then items_del k rest else (k', v') :: items_del k rest
  end.

Definition keys (items : list (string * value)) : list string := items.*1.

(** ** Primitive store operations *)

Definition alloc (o : object) : M heap addr :=
  λ h, (Ok (length h), h ++ [o]).

(** A reference outside the store does not occur in a Python program;
    the model answers [TypeError] for it, as for a value that is not
    an object of the expected kind. *)
Definition load (v : value) : M heap object :=
  λ h, match v with
       | VRef a => match h !! a with
                   | Some o => (Ok o, h)
                   | None => (Raise TypeError, h)
                   end
       | _ => (Raise TypeError, h)
       end.

Definition store (a : addr) (o : object) : M heap unit :=
  λ h, (Ok tt, <[a := o]> h).

(** The one-character strings of a string, the elements [iter(s)] yields. *)
Fixpoint chars (s : string) : list value :=
  match s with
  | EmptyString => []
  | String c rest => VStr (String c EmptyString) :: chars rest
  end.

(** The elements that iterating over [v] yields: the elements of a
    list, the keys of a dictionary, the characters of a string. *)
Definition py_iter (v : value) : M heap (list value) :=
  match v with
  | VNone => raise TypeError
  | VStr s => ret (chars s)
  | VRef _ =>
      o <- load v;;
      match o with
      | OList xs => ret xs
      | ODict items => ret (VStr <$> keys items)
      | OInstance _ => raise TypeError
      end
  end.

(** [list(v)]: a new list with the elements of the iterable [v]. *)
Definition py_list (v : value) : M heap value :=
  xs <- py_iter v;;
  a <- alloc (OList xs);;
  ret (VRef a).

(** [dict(v)] for a mapping [v]: a new dictionary with the same items.
    (Python also accepts an iterable of pairs; the store has no
    tuples, so every other argument is answered by [TypeError].) *)
Definition py_dict (v : value) : M heap value :=
  o <- load v;;
  match o with
  | ODict items => a <- alloc (ODict items);; ret (VRef a)
  | _ => raise TypeError
  end.

(** [d.items()] *)
Definition py_items (v : value) : M heap (list (string * value)) :=
  o <- load v;;
  match o with
  | ODict items => ret items
  | _ => raise TypeError
  end.

(** [c[k]] with a string [k]: a dictionary looks the key up, a list
    only takes integer indices. *)
Definition py_getitem (c : value) (k : string) : M heap value :=
  o <- load c;;
  match o with
  | ODict items =>
      match items_get k items with
      | Some v => ret v
      | None => raise (KeyError k)
      end
  | _ => raise TypeError
  end.

(** [d[k] = v] *)
Definition py_setitem (d : value) (k : string) (v : value) : M heap unit :=
  o <- load d;;
  match o, d with
  | ODict items, VRef a => store a (ODict (items_set k v items))
  | _, _ => raise TypeError
  end.

(** [del d[k]] *)
Definition py_delitem (d : value) (k : string) : M heap unit :=
  o <- load d;;
  match o, d with
  | ODict items, VRef a =>
      match items_get k items with
      | Some _ => store a (ODict (items_del k items))
      | None => raise (KeyError k)
      end
  | _, _ => raise TypeError
  end.

(** [l.append(v)] and [l.clear()] *)
Definition py_append (l : value) (v : value) : M heap unit :=
  o <- load l;;
  match o, l with
  | OList xs, VRef a => store a (OList (xs ++ [v]))
  | _, _ => raise TypeError
  end.

Definition py_clear (l : value) : M heap unit :=
  o <- load l;;
  match o, l with
  | OList _, VRef a => store a (OList [])
  | ODict _, VRef a => store a (ODict [])
  | _, _ => raise TypeError
  end.

(** Truth value of [v], as [or] and [if] test it. *)
Definition py_truthy (v : value) : M heap bool :=
  match v with
  | VNone => ret false
  | VStr s => ret (negb (String.eqb s EmptyString))
  | VRef _ =>
      o <- load v;;
      match o with
      | OList [] | ODict [] => ret false
      | _ => ret true
      end
  end.


(** ** [LoaderSpecPiece] *)

(** The piece owns one attribute, the list of the names it requires. *)
Record LoaderSpecPiece : Type := {
  _required_extensions : value;
}.

(** [LoaderSpecPiece.__init__]:
    [self._required_extensions = list(required_extensions or [])].
    An omitted argument is the default [None].  The literal [[]] is only
    built when the left operand of [or] is false. *)
Definition LoaderSpecPiece_init (required_extensions : value)
  : M heap LoaderSpecPiece :=
  truthy <- py_truthy required_extensions;;
  src <- (if truthy : bool then ret required_extensions
          else a <- alloc (OList []);; ret (VRef a));;
  l <- py_list src;;
  ret {| _required_extensions := l |}.

(** The property [required_extensions] hands out the attribute itself. *)
Definition required_extensions (self : LoaderSpecPiece) : value :=
  _required_extensions self.

(** ** [LoaderSpec] and [clone] *)

(** A dataclass instance: four attributes, each holding whatever value
    the constructor was given. *)
Record LoaderSpec : Type := {
  sortable_fields : value;
  default_sort_by : value;
  filterable_fields : value;
  extensions : value;
}.

(** The dictionary comprehension
    [{field: dict(filters) for field, filters in m.items()}]:
    [m.items()] is evaluated first, then the new dictionary is made and
    filled item by item. *)
Definition copy_nested (m : value) : M heap value :=
  its <- py_items m;;
  d <- alloc (ODict []);;
  for_each (λ it : string * value,
      c <- py_dict it.2;;
      py_setitem (VRef d) it.1 c) its;;;
  ret (VRef d).

(** [LoaderSpec.clone]; keyword arguments are evaluated left to right. *)
Definition clone (self : LoaderSpec) : M heap LoaderSpec :=
  sf <- py_dict (sortable_fields self);;
  ds <- py_list (default_sort_by self);;
  ff <- copy_nested (filterable_fields self);;
  ex <- py_list (extensions self);;
  ret {| sortable_fields := sf;
         default_sort_by := ds;
         filterable_fields := ff;
         extensions := ex |}.

(** The items [copy_nested] leaves in the new dictionary when the
    store had [base] objects before the first inner copy was made: the
    keys of the original, each with the copy made for it. *)
Fixpoint renumber (base : addr) (its : list (string * value))
  : list (string * value) :=
  match its with
  | [] => []
  | it :: rest => (it.1, VRef base) :: renumber (S base) rest
  end.

(** ** Reading a spec out of the store *)

(** The dictionary a value refers to. *)
Definition dict_at (h : heap) (v : value) : option (list (string * value)) :=
  match v with
  | VRef a => match h !! a with
              | Some (ODict items) => Some items
              | _ => None
              end
  | _ => None
  end.

(** An item of the field level with its operator dictionary read out. *)
Definition read_entry (h : heap) (it : string * value)
  : option (string * list (string * value)) :=
  inner ← dict_at h it.2; Some (it.1, inner).

(** The two-level mapping a value refers to, inner dictionaries read out. *)
Definition nested_at (h : heap) (v : value)
  : option (list (string * list (string * value))) :=
  its ← dict_at h v; mapM (read_entry h) its.

(** What [spec.sortable_fields] and [spec.filterable_fields] map to. *)
Definition sortable_view (h : heap) (s : LoaderSpec) :=
  dict_at h (sortable_fields s).
Definition filterable_view (h : heap) (s : LoaderSpec) :=
  nested_at h (filterable_fields s).

(** What [spec.sortable_fields[field]] and
    [spec.filterable_fields[field][operator]] resolve to. *)
Definition sort_of (h : heap) (s : LoaderSpec) (field : string) : option value :=
  its ← sortable_view h s; items_get field its.
Definition filter_of (h : heap) (s : LoaderSpec) (field operator : string)
  : option value :=
  nested ← filterable_view h s;
  inner ← items_get field nested;
  items_get operator inner.

(** The addresses of the mapping objects of a spec: the sort mapping,
    the field level of the filter mapping and its operator level. *)
Definition address_of (v : value) : list addr :=
  match v with VRef a => [a] | _ => [] end.

Definition mapping_objects (h : heap) (s : LoaderSpec) : list addr :=
  address_of (sortable_fields s) ++ address_of (filterable_fields s) ++
  match dict_at h (filterable_fields s) with
  | Some its => its ≫= (λ it, address_of it.2)
  | None => []
  end.

(** Adding and removing an entry of a mapping object. *)
Inductive mutation : Type :=
| SetItem (d : addr) (k : string) (v : value)
| DelItem (d : addr) (k : string).

Definition target (m : mutation) : addr :=
  match m with SetItem d _ _ | DelItem d _ => d end.

Definition mutate (m : mutation) : M heap unit :=
  match m with
  | SetItem d k v => py_setitem (VRef d) k v
  | DelItem d k => py_delitem (VRef d) k
  end.

(** A mutation that adds an entry sets a key the dictionary does not
    have; setting a key it has replaces an entry. *)
Definition adds_or_removes (h : heap) (m : mutation) : Prop :=
  match m with
  | SetItem d k _ =>
      ∀ items, h !! d = Some (ODict items) → items_get k items = None
  | DelItem _ _ => True
  end.

(** The items of a dictionary before and after at most one such
    mutation. *)
Definition one_change (old new : list (string * value)) : Prop :=
  new = old ∨
  (∃ k v, items_get k old = None ∧ new = items_set k v old) ∨
  (∃ k, new = items_del k old).

(** The store after a series of mutations, failed ones included. *)
Definition mutate_all (ms : list mutation) (h : heap) : heap :=
  foldl (λ h m, final (mutate m) h) h ms.

(** [v] can be iterated over. *)
Definition iterable_at (h : heap) (v : value) : Prop :=
  ∃ xs, outcome (py_iter v) h = Ok xs.

(** A spec is well-formed in a store when its sort mapping is a
    dictionary, its filter mapping is a dictionary of dictionaries whose
    field names are pairwise different (as the keys of a dictionary
    are), and the default sorts and the extensions can be iterated. *)
Record spec_ok (h : heap) (s : LoaderSpec) : Prop := {
  ok_sortable : is_Some (sortable_view h s);
  ok_filterable : is_Some (filterable_view h s);
  ok_filter_keys : ∀ its, dict_at h (filterable_fields s) = Some its → NoDup (keys its);
  ok_default_sort : iterable_at h (default_sort_by s);
  ok_extensions : iterable_at h (extensions s);
}.

End Store.

(* ===================================================================== *)
(** * Sort directions and default sorts                                  *)
(* ===================================================================== *)

(** [SortDirection] holds three class attributes, each a distinct
    [auto()] object. *)
Inductive SortDirection : Type :=
| ASC
| DESC
| UNSPECIFIED.

Global Instance SortDirection_eq_dec : EqDecision SortDirection.
Proof. solve_decision. Defined.

Record DefaultSort : Type := {
  sort : string;
  direction : SortDirection;
}.

(** The constructor the dataclass generates; [None] for [direction]
    stands for an omitted argument, which takes the declared default. *)
Definition DefaultSort_init (sort : string) (direction : option SortDirection)
  : DefaultSort :=
  {| sort := sort; direction := default UNSPECIFIED direction |}.

(** [DefaultSort.from_string]: [cls(sort)]. *)
Definition from_string (sort : string) : DefaultSort :=
  DefaultSort_init sort None.

(* ===================================================================== *)
(** * Builders                                                           *)
(* ===================================================================== *)

Module Builder.

(** [Any]: the reference values and options a caller passes. *)
Inductive Any : Type :=
| ANone
| AInt (z : Z)
| AStr (s : string).

(** ** The pieces of a spec

    A piece is an object with its list of required extension names and
    one abstract method over the query type [Q].  The method is user
    code: it returns the new query or raises. *)
Record LoaderExtension (Q : Type) : Type := {
  extension_requires : list string;
  apply_extension_to : Q → result Q;
}.
Arguments extension_requires {Q} _.
Arguments apply_extension_to {Q} _ _.

Record QueryFilter (Q : Type) : Type := {
  filter_requires : list string;
  apply_filter : Q → Any → result Q;
}.
Arguments filter_requires {Q} _.
Arguments apply_filter {Q} _ _ _.

Record QuerySort (Q : Type) : Type := {
  sort_requires : list string;
  apply_sorting : Q → SortDirection → result Q;
}.
Arguments sort_requires {Q} _.
Arguments apply_sorting {Q} _ _ _.

(** The spec as a builder reads it. *)
Record LoaderSpec (Q : Type) : Type := {
  sortable_fields : gmap string (QuerySort Q);
  default_sort_by : list DefaultSort;
  filterable_fields : gmap string (gmap string (QueryFilter Q));
  extensions : gmap string (LoaderExtension Q);
}.
Arguments sortable_fields {Q} _.
Arguments default_sort_by {Q} _.
Arguments filterable_fields {Q} _.
Arguments extensions {Q} _.

(** ** The protocol: [LoaderBuilder] and [ConfigurableLoaderBuilder]

    [B] is the builder, [L] the loader it builds.  The abstract methods
    are the fields; [set_page] is the one method the class implements. *)
Class ConfigurableLoaderBuilder (B L : Type) : Type := {
  build : M B L;
  apply_extension : string → M B unit;
  add_sort : string → SortDirection → Any → M B unit;
  add_filter : string → string → Any → M B unit;
  set_offset : Z → M B unit;
  set_limit : Z → M B unit;
}.

Definition set_page {B L} `{!ConfigurableLoaderBuilder B L}
  (page items_per_page : Z) : M B unit :=
  set_limit items_per_page;;;
  set_offset (page * items_per_page).

(** The calls a caller can make on a configurable builder. *)
Inductive call : Type :=
| ApplyExtension (name : string)
| AddSort (field : string) (direction : SortDirection) (options : Any)
| AddFilter (field operator : string) (reference_value : Any)
| SetOffset (offset : Z)
| SetLimit (limit : Z)
| SetPage (page items_per_page : Z).

Definition perform {B L} `{!ConfigurableLoaderBuilder B L} (c : call) : M B unit :=
  match c with
  | ApplyExtension name => apply_extension name
  | AddSort field d options => add_sort field d options
  | AddFilter field op v => add_filter field op v
  | SetOffset n => set_offset n
  | SetLimit n => set_limit n
  | SetPage page n => set_page page n
  end.

(** The calls that set the result window. *)
Definition is_window (c : call) : bool :=
  match c with
  | SetOffset _ | SetLimit _ | SetPage _ _ => true
  | _ => false
  end.

(** The builder after a series of calls.  A call that raises leaves the
    builder as it is at that point and the caller goes on. *)
Definition session {B L} `{!ConfigurableLoaderBuilder B L}
  (calls : list call) (b : B) : B :=
  foldl (λ b c, final (perform c) b) b calls.

(** ** [LoaderBuilderBase] *)

Section base.
Context {Q : Type}.

(** Modelled from the spec: the state of [LoaderBuilderBase], the class
    both SQLAlchemy builders derive from; its module is not part of the
    sources.  The spec gives a builder the shared spec, the working
    query and the set of extension names applied in this session. *)
Record LoaderBuilderBase : Type := {
  _spec : LoaderSpec Q;
  _query : Q;
  _applied_extensions : gset string;
}.

Definition with_query (q : Q) (self : LoaderBuilderBase) : LoaderBuilderBase :=
  {| _spec := _spec self;
     _query := q;
     _applied_extensions := _applied_extensions self |}.

Definition mark_applied (name : string) (self : LoaderBuilderBase)
  : LoaderBuilderBase :=
  {| _spec := _spec self;
     _query := _query self;
     _applied_extensions := {[name]} ∪ _applied_extensions self |}.

(** Modelled from the spec: [LoaderBuilderBase.__init__(spec, bare_query)];
    a builder is created pre-loaded with a spec and a bare query, and no
    extension has been applied yet. *)
Definition LoaderBuilderBase_init (spec : LoaderSpec Q) (bare_query : Q)
  : LoaderBuilderBase :=
  {| _spec := spec; _query := bare_query; _applied_extensions := ∅ |}.

(** Modelled from the spec: [LoaderBuilderBase.apply_extension].  It
    looks the name up in [spec.extensions] and fails with
    [ExtensionNotFound] if absent; if the extension was already applied
    in this session it does nothing; otherwise it calls the extension's
    transform, updates the working query and marks the name applied. *)
Definition base_apply_extension (extension_name : string)
  : M LoaderBuilderBase unit :=
  self <- get;;
  match extensions (_spec self) !! extension_name with
  | None => raise (ExtensionNotFound extension_name)
  | Some ext =>
      if decide (extension_name ∈ _applied_extensions self) then ret tt
      else
        q <- lift_result (apply_extension_to ext (_query self));;
        put (mark_applied extension_name (with_query q self))
  end.

(** Modelled from the spec: the prerequisite step of [add_sort] and
    [add_filter], which applies in order every extension a piece names,
    each through [apply_extension]. *)
Definition apply_required (names : list string) : M LoaderBuilderBase unit :=
  for_each base_apply_extension names.

(** Modelled from the spec: [LoaderBuilderBase.add_sort].  It looks the
    field up in [spec.sortable_fields] and fails with the not-found
    error if absent, applies the required extensions, then calls
    [apply_sorting(query, direction)] and stores the result. *)
Definition base_add_sort (field : string) (direction : SortDirection)
  (options : Any) : M LoaderBuilderBase unit :=
  self <- get;;
  match sortable_fields (_spec self) !! field with
  | None => raise (SortNotFound field)
  | Some s =>
      apply_required (sort_requires s);;;
      self <- get;;
      q <- lift_result (apply_sorting s (_query self) direction);;
      put (with_query q self)
  end.

(** Modelled from the spec: [LoaderBuilderBase.add_filter].  It looks up
    the field, then the operator, in [spec.filterable_fields] and fails
    with the not-found error if either lookup misses; it applies the
    required extensions, then [apply_filter(query, reference_value)]. *)
Definition base_add_filter (field operator : string) (reference_value : Any)
  : M LoaderBuilderBase unit :=
  self <- get;;
  match filterable_fields (_spec self) !! field with
  | None => raise (FilterNotFound field operator)
  | Some operators =>
      match operators !! operator with
      | None => raise (FilterNotFound field operator)
      | Some f =>
          apply_required (filter_requires f);;;
          self <- get;;
          q <- lift_result (apply_filter f (_query self) reference_value);;
          put (with_query q self)
      end
  end.

(** A way to observe the transforms: [log q] lists the extension names
    whose transform the query [q] has been through.  A builder is
    consistent with it when no name is listed twice and every listed
    name is marked applied. *)
Definition logged_once (log : Q → list string) (self : LoaderBuilderBase)
  : Prop :=
  NoDup (log (_query self)) ∧
  ∀ name, name ∈ log (_query self) → name ∈ _applied_extensions self.

End base.
Arguments LoaderBuilderBase Q : clear implicits.

(** ** Subclasses

    An object of a subclass contains the attributes of its base class;
    [super] reads that part and [with_super] replaces it.  A method
    the subclass inherits runs on that part of the object. *)
Class Inherits (B Base : Type) : Type := {
  super : B → Base;
  with_super : Base → B → B;
}.

Definition inherited {B Base A} `{!Inherits B Base} (m : M Base A) : M B A :=
  λ self, let (r, base) := m (super self) in (r, with_super base self).

(** [self._query] and the other two attributes, read on a subclass. *)
Definition query_of {B Q} `{!Inherits B (LoaderBuilderBase Q)} (b : B) : Q :=
  _query (super b).
Definition spec_of {B Q} `{!Inherits B (LoaderBuilderBase Q)} (b : B)
  : LoaderSpec Q :=
  _spec (super b).
Definition applied_of {B Q} `{!Inherits B (LoaderBuilderBase Q)} (b : B)
  : gset string :=
  _applied_extensions (super b).

(** A builder class that derives from [LoaderBuilderBase]: it inherits
    [apply_extension], [add_sort] and [add_filter] and supplies the
    window methods, which leave the spec and the set of applied
    extensions alone. *)
Class DerivesFromBase (B L Q : Type)
  `{!ConfigurableLoaderBuilder B L} `{!Inherits B (LoaderBuilderBase Q)} : Prop := {
  with_super_same : ∀ b : B, with_super (super b) b = b;
  super_with_super : ∀ (base : LoaderBuilderBase Q) (b : B),
    super (with_super base b) = base;
  apply_extension_inherited : ∀ name,
    apply_extension name = inherited (base_apply_extension name);
  add_sort_inherited : ∀ field d options,
    add_sort field d options = inherited (base_add_sort field d options);
  add_filter_inherited : ∀ field op v,
    add_filter field op v = inherited (base_add_filter field op v);
  set_offset_frame : ∀ n (b : B),
    spec_of (final (set_offset n) b) = spec_of b ∧
    applied_of (final (set_offset n) b) = applied_of b;
  set_limit_frame : ∀ n (b : B),
    spec_of (final (set_limit n) b) = spec_of b ∧
    applied_of (final (set_limit n) b) = applied_of b;
}.

End Builder.

(* ===================================================================== *)
(** * The SQLAlchemy builders                                            *)
(* ===================================================================== *)

Module SA.
Import Builder.

(** [sqlalchemy.Select] is an external class.  The builders use its two
    generative methods, which return a new statement or raise. *)
Class SelectLike (Select : Type) : Type := {
  Select_offset : Select → Z → result Select;
  Select_limit : Select → Z → result Select;
}.

Section sa.
Context {Select Session : Type} `{!SelectLike Select}.

(** [SALoader(query, session)]: the loader keeps the statement and the
    session it was constructed with. *)
Record SALoader : Type := {
  loader_query : Select;
  loader_session : Session;
}.

(** *** [SASimpleLoaderBuilder] *)

Record SASimpleLoaderBuilder : Type := {
  simple_base : LoaderBuilderBase Select;
  simple_session : Session;
}.

(** [SASimpleLoaderBuilder.__init__]:
    [super().__init__(spec, bare_query); self._session = session]. *)
Definition SASimpleLoaderBuilder_init (spec : LoaderSpec Select)
  (bare_query : Select) (session : Session) : SASimpleLoaderBuilder :=
  {| simple_base := LoaderBuilderBase_init spec bare_query;
     simple_session := session |}.

Global Instance simple_inherits
  : Inherits SASimpleLoaderBuilder (LoaderBuilderBase Select) := {
  super := simple_base;
  with_super base self :=
    {| simple_base := base; simple_session := simple_session self |};
}.

(** [self._query = self._query.offset(offset)] *)
Definition simple_set_offset (n : Z) : M SASimpleLoaderBuilder unit :=
  inherited (
    self <- get;;
    q <- lift_result (Select_offset (_query self) n);;
    put (with_query q self)).

(** [self._query = self._query.limit(limit)] *)
Definition simple_set_limit (n : Z) : M SASimpleLoaderBuilder unit :=
  inherited (
    self <- get;;
    q <- lift_result (Select_limit (_query self) n);;
    put (with_query q self)).

(** [return SALoader(self._query, self._session)] *)
Definition simple_build : M SASimpleLoaderBuilder SALoader :=
  self <- get;;
  ret {| loader_query := _query (simple_base self);
         loader_session := simple_session self |}.

Global Instance SASimple : ConfigurableLoaderBuilder SASimpleLoaderBuilder SALoader := {
  build := simple_build;
  apply_extension name := inherited (base_apply_extension name);
  add_sort field d options := inherited (base_add_sort field d options);
  add_filter field op v := inherited (base_add_filter field op v);
  set_offset := simple_set_offset;
  set_limit := simple_set_limit;
}.

(** *** [BuiltQuery] and [SAComplexLoaderBuilder] *)

(** An object with one method, [build_select]; a subclass overrides it. *)
Record BuiltQuery : Type := {
  build_select : result Select;
}.

(** The class itself: [build_select] raises [NotImplementedError]. *)
Definition BuiltQuery_init : BuiltQuery :=
  {| build_select := Raise NotImplementedError |}.

Record SAComplexLoaderBuilder : Type := {
  complex_base : LoaderBuilderBase BuiltQuery;
  complex_session : Session;
}.

Definition SAComplexLoaderBuilder_init (spec : LoaderSpec BuiltQuery)
  (bare_query : BuiltQuery) (session : Session) : SAComplexLoaderBuilder :=
  {| complex_base := LoaderBuilderBase_init spec bare_query;
     complex_session := session |}.

Global Instance complex_inherits
  : Inherits SAComplexLoaderBuilder (LoaderBuilderBase BuiltQuery) := {
  super := complex_base;
  with_super base self :=
    {| complex_base := base; complex_session := complex_session self |};
}.

(** [pass] *)
Definition complex_set_offset (n : Z) : M SAComplexLoaderBuilder unit :=
  ret tt.

(** [pass] *)
Definition complex_set_limit (n : Z) : M SAComplexLoaderBuilder unit :=
  ret tt.

(** [s = self._query.build_select(); return SALoader(s, self._session)] *)
Definition complex_build : M SAComplexLoaderBuilder SALoader :=
  self <- get;;
  s <- lift_result (build_select (_query (complex_base self)));;
  ret {| loader_query := s; loader_session := complex_session self |}.

Global Instance SAComplex : ConfigurableLoaderBuilder SAComplexLoaderBuilder SALoader := {
  build := complex_build;
  apply_extension name := inherited (base_apply_extension name);
  add_sort field d options := inherited (base_add_sort field d options);
  add_filter field op v := inherited (base_add_filter field op v);
  set_offset := complex_set_offset;
  set_limit := complex_set_limit;
}.

End sa.
Arguments SALoader : clear implicits.
Arguments SASimpleLoaderBuilder : clear implicits.
Arguments SAComplexLoaderBuilder : clear implicits.
Arguments BuiltQuery : clear implicits.

End SA.

(* ===================================================================== *)
(** * A recording query                                                  *)
(* ===================================================================== *)

(** A query that records the clauses put on it, in order.  It serves as
    the concrete query of the examples. *)
Module Probe.
Import Builder SA.

Inductive clause : Type :=
| Joined (name : string)
| Filtered (field operator : string) (reference_value : Any)
| Ordered (field : string) (direction : SortDirection)
| Offset (n : Z)
| Limit (n : Z).

Definition query := list clause.

(** The joins a query carries, in order. *)
Definition joins (q : query) : list string :=
  omap (λ c, match c with Joined name => Some name | _ => None end) q.

Global Instance probe_select : SelectLike query := {
  Select_offset q n := Ok (q ++ [Offset n]);
  Select_limit q n := Ok (q ++ [Limit n]);
}.

Definition join (name : string) (requires : list string) : LoaderExtension query :=
  {| extension_requires := requires;
     apply_extension_to q := Ok (q ++ [Joined name]) |}.

Definition filter_on (field operator : string) (requires : list string)
  : QueryFilter query :=
  {| filter_requires := requires;
     apply_filter q v := Ok (q ++ [Filtered field operator v]) |}.

Definition order_by (field : string) (requires : list string) : QuerySort query :=
  {| sort_requires := requires;
     apply_sorting q d := Ok (q ++ [Ordered field d]) |}.

(** The spec of the end-to-end scenario: a filter on ["status"], a
    filter on ["author_name"] that needs the join ["with_author"], a
    sort on ["created_at"], which is also the default sort. *)
Definition blog_spec : LoaderSpec query :=
  {| sortable_fields := {[ "created_at" := order_by "created_at" [] ]};
     default_sort_by := [ {| sort := "created_at"; direction := ASC |} ];
     filterable_fields :=
       {[ "status" := {[ "eq" := filter_on "status" "eq" [] ]};
          "author_name" :=
            {[ "eq" := filter_on "author_name" "eq" ["with_author"] ]} ]};
     extensions := {[ "with_author" := join "with_author" [] ]} |}.

Definition fresh_simple : SASimpleLoaderBuilder query unit :=
  SASimpleLoaderBuilder_init blog_spec [] tt.

(** A complex builder: its query object is a [BuiltQuery] whose
    [build_select] hands out the statement it carries. *)
Definition built (q : query) : BuiltQuery query := {| build_select := Ok q |}.

Definition complex_spec : LoaderSpec (BuiltQuery query) :=
  {| sortable_fields := ∅; default_sort_by := [];
     filterable_fields := ∅; extensions := ∅ |}.

Definition fresh_complex : SAComplexLoaderBuilder query unit :=
  SAComplexLoaderBuilder_init complex_spec (built []) tt.

(** A complex builder given a plain [BuiltQuery]. *)
Definition plain_complex : SAComplexLoaderBuilder query unit :=
  SAComplexLoaderBuilder_init complex_spec BuiltQuery_init tt.

End Probe.

(** ** A store holding the scenario's spec *)

Module Example.
Import Store.

(** Addresses 0 to 4 hold the sort, the two filters, the extension and
    the default sort; 5 to 10 the containers of the spec; 11 a list of
    names a caller builds a piece from. *)
Definition blog_heap : heap :=
  [ OInstance "QuerySort"; OInstance "QueryFilter"; OInstance "QueryFilter";
    OInstance "LoaderExtension"; OInstance "DefaultSort";
    ODict [("created_at", VRef 0%nat)];
    OList [VRef 4%nat];
    ODict [("eq", VRef 1%nat)];
    ODict [("eq", VRef 2%nat)];
    ODict [("status", VRef 7%nat); ("author_name", VRef 8%nat)];
    ODict [("with_author", VRef 3%nat)];
    OList [VStr "with_author"] ].

Definition blog : LoaderSpec :=
  {| sortable_fields := VRef 5%nat;
     default_sort_by := VRef 6%nat;
     filterable_fields := VRef 9%nat;
     extensions := VRef 10%nat |}.

(** The same spec with its extensions kept in a sequence. *)
Definition blog_listed : LoaderSpec :=
  {| sortable_fields := VRef 5%nat;
     default_sort_by := VRef 6%nat;
     filterable_fields := VRef 9%nat;
     extensions := VRef 11%nat |}.

(** A store where two fields use one operator dictionary. *)
Definition shared_heap : heap :=
  [ OInstance "QueryFilter";
    ODict [("eq", VRef 0%nat)];
    ODict [("title", VRef 1%nat); ("subtitle", VRef 1%nat)];
    ODict []; OList []; OList [] ].

Definition shared : LoaderSpec :=
  {| sortable_fields := VRef 3%nat;
     default_sort_by := VRef 4%nat;
     filterable_fields := VRef 2%nat;
     extensions := VRef 5%nat |}.

End Example.

(* ===================================================================== *)
(** * Properties                                                         *)
(* ===================================================================== *)

Import Builder SA.

(** ** The monad *)

Lemma run_bind {S A B} (m : M S A) (k : A → M S B) (s : S) :
  run (bind m k) s =
  match run m s with
  | (Ok a, s') => run (k a) s'
  | (Raise e, s') => (Raise e, s')
  end.
Proof. reflexivity. Qed.

Lemma ret_run {S A} (a : A) (s : S) : run (ret a) s = (Ok a, s).
Proof. reflexivity. Qed.

Lemma run_inherited {B Base A} `{!Inherits B Base} (m : M Base A) (b : B) :
  run (inherited m) b = ((run m (super b)).1, with_super (run m (super b)).2 b).
Proof. unfold run, inherited. by destruct (m (super b)). Qed.

Lemma final_inherited {B Base A} `{!Inherits B Base} (m : M Base A) (b : B) :
  final (inherited m) b = with_super (final m (super b)) b.
Proof. unfold final. change (inherited m b) with (run (inherited m) b). by rewrite run_inherited. Qed.

(** ** [DefaultSort.from_string] *)

(** C10: for every string [s], [DefaultSort.from_string(s)] is the
    default sort on field [s] with direction [SortDirection.UNSPECIFIED],
    the declared default. *)
Theorem from_string_field_and_direction (s : string) :
  sort (from_string s) = s ∧ direction (from_string s) = UNSPECIFIED.
Proof. split; reflexivity. Qed.

(** ** [set_page] *)

(** C4: on every configurable builder and for all non-negative [page]
    and [n], [set_page(page, n)] is [set_limit(n)] followed by
    [set_offset(page * n)]: it gives the same outcome and leaves the
    same builder, the offset call being made on the builder the limit
    call left, and not at all when the limit call raised. *)
Theorem set_page_is_limit_then_offset {B L} `{!ConfigurableLoaderBuilder B L}
  (page n : Z) (b : B) :
  (0 ≤ page)%Z → (0 ≤ n)%Z →
  run (set_page page n) b =
  match run (set_limit n) b with
  | (Ok _, b1) => run (set_offset (page * n)) b1
  | (Raise e, b1) => (Raise e, b1)
  end.
Proof.
  intros _ _. unfold set_page. rewrite run_bind.
  by destruct (run (set_limit n) b) as [[[]|e] b1].
Qed.

Lemma set_page_is_limit_then_offset_witness :
  run (set_page 2 10) Probe.fresh_simple =
  match run (set_limit 10) Probe.fresh_simple with
  | (Ok _, b1) => run (set_offset (2 * 10)) b1
  | (Raise e, b1) => (Raise e, b1)
  end.
Proof. apply set_page_is_limit_then_offset; lia. Defined.

(** On the simple builder a page is the limit clause followed by the
    offset clause. *)
Lemma simple_set_page_query {Select Session} `{!SelectLike Select}
  (page n : Z) (b : SASimpleLoaderBuilder Select Session) (q1 q2 : Select) :
  Select_limit (query_of b) n = Ok q1 →
  Select_offset q1 (page * n) = Ok q2 →
  run (set_page page n) b = (Ok tt, with_super (with_query q2 (super b)) b).
Proof.
  intros H1 H2. destruct b as [[sp q ap] se]. cbn in *.
  unfold set_page, set_limit, set_offset, SASimple, simple_set_limit,
    simple_set_offset, run, bind, inherited, get, lift_result, put; cbn.
  unfold query_of in H1; cbn in H1. rewrite H1; cbn. by rewrite H2.
Qed.

(** ** [set_offset] and [set_limit] *)

Lemma simple_set_offset_run {Select Session} `{!SelectLike Select}
  (n : Z) (b : SASimpleLoaderBuilder Select Session) :
  run (set_offset n) b =
  match Select_offset (query_of b) n with
  | Ok q => (Ok tt, with_super (with_query q (super b)) b)
  | Raise e => (Raise e, b)
  end.
Proof.
  destruct b as [[sp q ap] se].
  unfold set_offset, SASimple, simple_set_offset, run, bind, inherited, get,
    lift_result, put, query_of; cbn.
  by destruct (Select_offset q n).
Qed.

Lemma simple_set_limit_run {Select Session} `{!SelectLike Select}
  (n : Z) (b : SASimpleLoaderBuilder Select Session) :
  run (set_limit n) b =
  match Select_limit (query_of b) n with
  | Ok q => (Ok tt, with_super (with_query q (super b)) b)
  | Raise e => (Raise e, b)
  end.
Proof.
  destruct b as [[sp q ap] se].
  unfold set_limit, SASimple, simple_set_limit, run, bind, inherited, get,
    lift_result, put, query_of; cbn.
  by destruct (Select_limit q n).
Qed.

(** C2, as the spec words it, fails: a negative offset or limit is
    accepted.  The complex builder returns normally on [-1], and so does
    the simple builder over a query that takes any integer, which then
    carries the clause with [-1]. *)
Lemma negative_window_accepted :
  outcome (set_offset (-1)) Probe.fresh_complex = Ok tt ∧
  outcome (set_limit (-1)) Probe.fresh_complex = Ok tt ∧
  run (set_offset (-1)) Probe.fresh_simple =
    (Ok tt, with_super (with_query [Probe.Offset (-1)] (super Probe.fresh_simple))
              Probe.fresh_simple) ∧
  ¬ ∃ e, outcome (set_offset (-1)) Probe.fresh_complex = Raise e ∧
         is_validation_error e = true.
Proof.
  repeat split; try reflexivity.
  intros (e & He & _). discriminate He.
Qed.

(** C2, amended: neither builder checks the sign of the argument.  For
    every integer [n], the complex builder's [set_offset(n)] and
    [set_limit(n)] return normally, and the simple builder's return
    normally exactly when the query's own [offset(n)] or [limit(n)]
    does and raise what that call raises otherwise. *)
Theorem window_calls_do_not_validate {Select Session} `{!SelectLike Select}
  (n : Z) (s : SASimpleLoaderBuilder Select Session)
  (c : SAComplexLoaderBuilder Select Session) :
  outcome (set_offset n) c = Ok tt ∧
  outcome (set_limit n) c = Ok tt ∧
  outcome (set_offset n) s =
    match Select_offset (query_of s) n with
    | Ok _ => Ok tt
    | Raise e => Raise e
    end ∧
  outcome (set_limit n) s =
    match Select_limit (query_of s) n with
    | Ok _ => Ok tt
    | Raise e => Raise e
    end.
Proof.
  split; [reflexivity|]. split; [reflexivity|]. split.
  - change (outcome (set_offset n) s) with (run (set_offset n) s).1.
    rewrite simple_set_offset_run. by destruct (Select_offset _ _).
  - change (outcome (set_limit n) s) with (run (set_limit n) s).1.
    rewrite simple_set_limit_run. by destruct (Select_limit _ _).
Qed.

(** C3 (the code falls short of it): on the complex builder
    [set_offset(n)] and [set_limit(n)] are empty methods.  Whatever [n]
    is, they return and the builder, its working query included, is as
    it was; the window is never constrained. *)
Theorem complex_window_calls_do_nothing {Select Session}
  (n : Z) (b : SAComplexLoaderBuilder Select Session) :
  run (set_offset n) b = (Ok tt, b) ∧ run (set_limit n) b = (Ok tt, b).
Proof. split; reflexivity. Qed.

(** The simple builder does what C3 says: the working query becomes the
    previous one with the clause put on it. *)
Lemma simple_window_calls_constrain {Select Session} `{!SelectLike Select}
  (n : Z) (b : SASimpleLoaderBuilder Select Session) (q : Select) :
  (Select_offset (query_of b) n = Ok q →
   query_of (final (set_offset n) b) = q) ∧
  (Select_limit (query_of b) n = Ok q →
   query_of (final (set_limit n) b) = q).
Proof.
  split; intros H.
  - change (final (set_offset n) b) with (run (set_offset n) b).2.
    rewrite simple_set_offset_run, H. by destruct b as [[]].
  - change (final (set_limit n) b) with (run (set_limit n) b).2.
    rewrite simple_set_limit_run, H. by destruct b as [[]].
Qed.

(** ** The SQLAlchemy builders derive from [LoaderBuilderBase] *)

Global Instance simple_derives {Select Session} `{!SelectLike Select} :
  DerivesFromBase (SASimpleLoaderBuilder Select Session)
    (SALoader Select Session) Select.
Proof.
  split; try reflexivity.
  - by intros [].
  - intros n b. change (final (set_offset n) b) with (run (set_offset n) b).2.
    rewrite simple_set_offset_run. destruct b as [[]].
    by destruct (Select_offset _ _).
  - intros n b. change (final (set_limit n) b) with (run (set_limit n) b).2.
    rewrite simple_set_limit_run. destruct b as [[]].
    by destruct (Select_limit _ _).
Qed.

Global Instance complex_derives {Select Session} :
  DerivesFromBase (SAComplexLoaderBuilder Select Session)
    (SALoader Select Session) (BuiltQuery Select).
Proof. split; try done. by intros []. Qed.

(** ** [add_filter] on a field the spec does not have *)

Lemma base_add_filter_missing_field {Q} (b : LoaderBuilderBase Q)
  (field operator : string) (v : Any) :
  filterable_fields (_spec b) !! field = None →
  run (base_add_filter field operator v) b =
  (Raise (FilterNotFound field operator), b).
Proof.
  intros H. unfold base_add_filter, run, bind, get. by rewrite H.
Qed.

(** C6: on every builder derived from the base class, [add_filter] on a
    field that is not a key of [spec.filterable_fields] raises an error
    of the not-found family, and the builder after the call, its working
    query included, is the builder before it. *)
Theorem add_filter_unknown_field {B L Q} `{!ConfigurableLoaderBuilder B L}
  `{!Inherits B (LoaderBuilderBase Q)} `{!DerivesFromBase B L Q}
  (b : B) (field operator : string) (v : Any) :
  filterable_fields (spec_of b) !! field = None →
  ∃ e, is_not_found e = true ∧
       run (add_filter field operator v) b = (Raise e, b) ∧
       query_of (final (add_filter field operator v) b) = query_of b.
Proof.
  intros H. exists (FilterNotFound field operator).
  assert (run (add_filter field operator v) b =
          (Raise (FilterNotFound field operator), b)) as Hrun.
  { rewrite add_filter_inherited, run_inherited.
    rewrite base_add_filter_missing_field by exact H.
    cbn. by rewrite with_super_same. }
  split; [reflexivity|]. split; [exact Hrun|].
  change (final (add_filter field operator v) b)
    with (run (add_filter field operator v) b).2.
  by rewrite Hrun.
Qed.

Lemma add_filter_unknown_field_witness :
  ∃ e, is_not_found e = true ∧
       run (add_filter "missing_field" "eq" (AInt 1)) Probe.fresh_simple =
         (Raise e, Probe.fresh_simple) ∧
       query_of (final (add_filter "missing_field" "eq" (AInt 1))
                   Probe.fresh_simple) = query_of Probe.fresh_simple.
Proof.
  apply (add_filter_unknown_field Probe.fresh_simple "missing_field" "eq" (AInt 1)).
  vm_compute. reflexivity.
Defined.

(** ** [build] and the default sorts *)

Lemma simple_build_run {Select Session} `{!SelectLike Select}
  (b : SASimpleLoaderBuilder Select Session) :
  run build b =
  (Ok {| loader_query := query_of b; loader_session := simple_session b |}, b).
Proof. reflexivity. Qed.

(** C8 (the code falls short of it): [build] of the simple builder binds
    the loader to the working query as it stands.  On a fresh builder
    whose spec declares the default sort on ["created_at"], and with no
    [add_sort] call made, the loader's query is the bare query, while
    the query with that default sort applied carries the ordering. *)
Theorem build_leaves_default_sort_out :
  default_sort_by (spec_of Probe.fresh_simple) =
    [ {| sort := "created_at"; direction := ASC |} ] ∧
  query_of (final (add_sort "created_at" ASC ANone) Probe.fresh_simple) =
    [ Probe.Ordered "created_at" ASC ] ∧
  run build Probe.fresh_simple =
    (Ok {| loader_query := []; loader_session := tt |}, Probe.fresh_simple).
Proof. repeat split. Qed.

(** The second half of C8 holds: whatever calls were made, [build] adds
    nothing to the working query, so no default sort is applied after an
    [add_sort] call either. *)
Lemma build_after_calls {Select Session} `{!SelectLike Select}
  (calls : list call) (b : SASimpleLoaderBuilder Select Session) :
  outcome build (session calls b) =
  Ok {| loader_query := query_of (session calls b);
        loader_session := simple_session (session calls b) |}.
Proof. reflexivity. Qed.

(** ** Extensions are applied once *)

Section base_facts.
Context {Q : Type}.
Implicit Types (b : LoaderBuilderBase Q) (name : string).

(** A request for an extension already applied does nothing. *)
Lemma base_apply_extension_skip b name ext :
  extensions (_spec b) !! name = Some ext →
  name ∈ _applied_extensions b →
  run (base_apply_extension name) b = (Ok tt, b).
Proof.
  intros Hreg Happ. unfold base_apply_extension, run, bind, get.
  rewrite Hreg. by rewrite decide_True.
Qed.

(** A request for an extension not yet applied runs its transform. *)
Lemma base_apply_extension_first b name ext :
  extensions (_spec b) !! name = Some ext →
  name ∉ _applied_extensions b →
  run (base_apply_extension name) b =
  match apply_extension_to ext (_query b) with
  | Ok q => (Ok tt, mark_applied name (with_query q b))
  | Raise e => (Raise e, b)
  end.
Proof.
  intros Hreg Happ. unfold base_apply_extension, run, bind, get.
  rewrite Hreg. rewrite decide_False by done.
  unfold lift_result, put. by destruct (apply_extension_to _ _).
Qed.

Lemma base_apply_extension_unknown b name :
  extensions (_spec b) !! name = None →
  run (base_apply_extension name) b = (Raise (ExtensionNotFound name), b).
Proof.
  intros Hreg. unfold base_apply_extension, run, bind, get. by rewrite Hreg.
Qed.

(** No call changes the spec or takes a name out of the applied set. *)
Lemma base_apply_extension_frame b name :
  _spec (final (base_apply_extension name) b) = _spec b ∧
  _applied_extensions b ⊆ _applied_extensions (final (base_apply_extension name) b).
Proof.
  unfold final. change (base_apply_extension name b)
    with (run (base_apply_extension name) b).
  destruct (extensions (_spec b) !! name) as [ext|] eqn:Hreg.
  - destruct (decide (name ∈ _applied_extensions b)) as [Happ|Happ].
    + by rewrite (base_apply_extension_skip _ _ _ Hreg Happ).
    + rewrite (base_apply_extension_first _ _ _ Hreg Happ).
      destruct (apply_extension_to _ _); cbn; [|done].
      split; [done|set_solver].
  - by rewrite base_apply_extension_unknown.
Qed.

(** A request that returns leaves the name in the applied set. *)
Lemma base_apply_extension_marks b name :
  outcome (base_apply_extension name) b = Ok tt →
  name ∈ _applied_extensions (final (base_apply_extension name) b).
Proof.
  unfold outcome, final. change (base_apply_extension name b)
    with (run (base_apply_extension name) b).
  destruct (extensions (_spec b) !! name) as [ext|] eqn:Hreg.
  - destruct (decide (name ∈ _applied_extensions b)) as [Happ|Happ].
    + by rewrite (base_apply_extension_skip _ _ _ Hreg Happ).
    + rewrite (base_apply_extension_first _ _ _ Hreg Happ).
      destruct (apply_extension_to _ _); cbn; [|done].
      intros _. set_solver.
  - by rewrite base_apply_extension_unknown.
Qed.

Lemma apply_required_frame names b :
  _spec (final (apply_required names) b) = _spec b ∧
  _applied_extensions b ⊆ _applied_extensions (final (apply_required names) b).
Proof.
  revert b. induction names as [|n names IH]; intros b; [done|].
  unfold final, apply_required; cbn. unfold bind.
  pose proof (base_apply_extension_frame b n) as [Hs Ha].
  unfold final in Hs, Ha.
  destruct (base_apply_extension n b) as [[[]|e] b1]; cbn in *; [|done].
  destruct (IH b1) as [Hs1 Ha1]. unfold final, apply_required in Hs1, Ha1.
  split; [congruence|by etrans].
Qed.

Lemma base_add_sort_frame field d options b :
  _spec (final (base_add_sort field d options) b) = _spec b ∧
  _applied_extensions b ⊆
    _applied_extensions (final (base_add_sort field d options) b).
Proof.
  unfold final, base_add_sort, bind, get.
  destruct (sortable_fields (_spec b) !! field) as [s|]; [|done].
  pose proof (apply_required_frame (sort_requires s) b) as [Hs Ha].
  unfold final in Hs, Ha.
  destruct (apply_required (sort_requires s) b) as [[[]|e] b1]; cbn in *; [|done].
  unfold lift_result, put. by destruct (apply_sorting _ _ _).
Qed.

Lemma base_add_filter_frame field op v b :
  _spec (final (base_add_filter field op v) b) = _spec b ∧
  _applied_extensions b ⊆
    _applied_extensions (final (base_add_filter field op v) b).
Proof.
  unfold final, base_add_filter, bind, get.
  destruct (filterable_fields (_spec b) !! field) as [ops|]; [|done].
  destruct (ops !! op) as [f|]; [|done].
  pose proof (apply_required_frame (filter_requires f) b) as [Hs Ha].
  unfold final in Hs, Ha.
  destruct (apply_required (filter_requires f) b) as [[[]|e] b1]; cbn in *; [|done].
  unfold lift_result, put. by destruct (apply_filter _ _ _).
Qed.

(** In the prerequisite step a name already applied is passed over. *)
Lemma apply_required_skip pre post b name ext :
  extensions (_spec b) !! name = Some ext →
  name ∈ _applied_extensions b →
  run (apply_required (pre ++ name :: post)) b =
  run (apply_required (pre ++ post)) b.
Proof.
  revert b. induction pre as [|p pre IH]; intros b Hreg Happ.
  - unfold apply_required, run; cbn. unfold bind.
    change (base_apply_extension name b)
      with (run (base_apply_extension name) b).
    by rewrite (base_apply_extension_skip _ _ _ Hreg Happ).
  - unfold apply_required, run in *; cbn. unfold bind.
    pose proof (base_apply_extension_frame b p) as [Hs Ha].
    unfold final in Hs, Ha.
    destruct (base_apply_extension p b) as [[[]|e] b1]; cbn in *; [|done].
    apply IH; [by rewrite Hs|set_solver].
Qed.

End base_facts.

Section derived_facts.
Context {B L Q : Type} `{!ConfigurableLoaderBuilder B L}
  `{!Inherits B (LoaderBuilderBase Q)} `{!DerivesFromBase B L Q}.

Lemma inherited_frame {A} (m : M (LoaderBuilderBase Q) A) (b : B) :
  _spec (final m (super b)) = _spec (super b) ∧
  _applied_extensions (super b) ⊆ _applied_extensions (final m (super b)) →
  spec_of (final (inherited m) b) = spec_of b ∧
  applied_of b ⊆ applied_of (final (inherited m) b).
Proof.
  rewrite final_inherited. unfold spec_of, applied_of.
  by rewrite super_with_super.
Qed.

Lemma perform_frame (c : call) (b : B) :
  spec_of (final (perform c) b) = spec_of b ∧
  applied_of b ⊆ applied_of (final (perform c) b).
Proof.
  destruct c as [name|field d options|field op v|n|n|page n]; cbn.
  - rewrite apply_extension_inherited.
    apply inherited_frame, base_apply_extension_frame.
  - rewrite add_sort_inherited. apply inherited_frame, base_add_sort_frame.
  - rewrite add_filter_inherited. apply inherited_frame, base_add_filter_frame.
  - destruct (set_offset_frame n b) as [-> ->]. done.
  - destruct (set_limit_frame n b) as [-> ->]. done.
  - unfold set_page, final, bind.
    destruct (set_limit_frame n b) as [Hs Ha]. unfold final in Hs, Ha.
    destruct (set_limit n b) as [[[]|e] b1]; cbn in *.
    + destruct (set_offset_frame (page * n) b1) as [Hs1 Ha1].
      unfold final in Hs1, Ha1. rewrite Hs1, Ha1, Hs, Ha. done.
    + by rewrite Hs, Ha.
Qed.

Lemma session_frame (calls : list call) (b : B) :
  spec_of (session calls b) = spec_of b ∧
  applied_of b ⊆ applied_of (session calls b).
Proof.
  revert b. induction calls as [|c calls IH]; intros b; [done|].
  cbn. destruct (perform_frame c b) as [Hs Ha].
  destruct (IH (final (perform c) b)) as [Hs1 Ha1].
  unfold session in *. split; [congruence|by etrans].
Qed.

End derived_facts.

(** C7: within one builder session an extension's transform runs at
    most once.  Once [name] is in the set of applied extensions (which
    is where the request that ran its transform put it), then after any
    further calls it is still there, a direct [apply_extension(name)]
    returns and leaves the builder, working query included, as it is,
    and the prerequisite step of a filter or sort that names it does
    what it would do without that name. *)
Theorem extension_applied_at_most_once {B L Q} `{!ConfigurableLoaderBuilder B L}
  `{!Inherits B (LoaderBuilderBase Q)} `{!DerivesFromBase B L Q}
  (b : B) (name : string) (ext : LoaderExtension Q) (calls : list call) :
  extensions (spec_of b) !! name = Some ext →
  name ∈ applied_of b →
  name ∈ applied_of (session calls b) ∧
  run (apply_extension name) (session calls b) = (Ok tt, session calls b) ∧
  query_of (final (apply_extension name) (session calls b)) =
    query_of (session calls b) ∧
  ∀ pre post : list string,
    run (inherited (apply_required (pre ++ name :: post))) (session calls b) =
    run (inherited (apply_required (pre ++ post))) (session calls b).
Proof.
  intros Hreg Happ.
  destruct (session_frame calls b) as [Hs Ha].
  set (b' := session calls b) in *.
  assert (extensions (_spec (super b')) !! name = Some ext) as Hreg'.
  { unfold spec_of in *. by rewrite Hs. }
  assert (name ∈ _applied_extensions (super b')) as Happ'.
  { unfold applied_of in *. set_solver. }
  assert (run (apply_extension name) b' = (Ok tt, b')) as Hrun.
  { rewrite apply_extension_inherited, run_inherited.
    rewrite (base_apply_extension_skip _ _ _ Hreg' Happ'). cbn.
    by rewrite with_super_same. }
  split; [exact Happ'|]. split; [exact Hrun|]. split.
  - change (final (apply_extension name) b')
      with (run (apply_extension name) b').2. by rewrite Hrun.
  - intros pre post. rewrite !run_inherited.
    by rewrite (apply_required_skip pre post _ _ _ Hreg' Happ').
Qed.

Lemma extension_applied_at_most_once_witness :
  let b := final (add_filter "author_name" "eq" (AStr "Ann")) Probe.fresh_simple in
  let calls := [AddSort "created_at" DESC ANone; SetPage 2 10] in
  "with_author" ∈ applied_of (session calls b) ∧
  run (apply_extension "with_author") (session calls b) =
    (Ok tt, session calls b) ∧
  query_of (final (apply_extension "with_author") (session calls b)) =
    query_of (session calls b) ∧
  ∀ pre post : list string,
    run (inherited (apply_required (pre ++ "with_author" :: post)))
      (session calls b) =
    run (inherited (apply_required (pre ++ post))) (session calls b).
Proof.
  intros b calls.
  apply (extension_applied_at_most_once b "with_author"
           (Probe.join "with_author" []) calls).
  - vm_compute. reflexivity.
  - apply (bool_decide_unpack _). vm_compute. exact I.
Defined.

(** The request that runs the transform is the one that marks the name:
    after a direct request that returned, the name is applied. *)
Lemma apply_extension_marks {B L Q} `{!ConfigurableLoaderBuilder B L}
  `{!Inherits B (LoaderBuilderBase Q)} `{!DerivesFromBase B L Q}
  (b : B) (name : string) :
  outcome (apply_extension name) b = Ok tt →
  name ∈ applied_of (final (apply_extension name) b).
Proof.
  rewrite apply_extension_inherited. unfold outcome.
  change (inherited (base_apply_extension name) b)
    with (run (inherited (base_apply_extension name)) b).
  rewrite final_inherited, run_inherited. cbn. unfold applied_of.
  rewrite super_with_super. apply base_apply_extension_marks.
Qed.

(** The scenario: two filters on the author's name and a direct request
    put the join on the query once. *)
Example with_author_joined_once :
  query_of (session [ AddFilter "author_name" "eq" (AStr "Ann");
                      AddFilter "author_name" "eq" (AStr "Bob");
                      ApplyExtension "with_author" ] Probe.fresh_simple) =
  [ Probe.Joined "with_author";
    Probe.Filtered "author_name" "eq" (AStr "Ann");
    Probe.Filtered "author_name" "eq" (AStr "Bob") ].
Proof. vm_compute. reflexivity. Qed.

(** ** Counting the transforms

    The same fact seen from the query.  Take any way [log] of reading
    off a query which extension transforms it has been through, such
    that the transform registered under a name adds that name and
    nothing else does.  Then no session makes a name appear twice. *)

Section run_once.
Context {Q : Type} (log : Q → list string) (spec : LoaderSpec Q).

Hypothesis log_extension : ∀ name e q q',
  extensions spec !! name = Some e →
  apply_extension_to e q = Ok q' → log q' = log q ++ [name].
Hypothesis log_filter : ∀ field ops op f q v q',
  filterable_fields spec !! field = Some ops → ops !! op = Some f →
  apply_filter f q v = Ok q' → log q' = log q.
Hypothesis log_sort : ∀ field s q d q',
  sortable_fields spec !! field = Some s →
  apply_sorting s q d = Ok q' → log q' = log q.

Lemma base_apply_extension_logged (b : LoaderBuilderBase Q) (name : string) :
  _spec b = spec → logged_once log b →
  logged_once log (final (base_apply_extension name) b).
Proof.
  intros Hspec [Hnd Hin]. unfold final.
  change (base_apply_extension name b) with (run (base_apply_extension name) b).
  destruct (extensions (_spec b) !! name) as [ext|] eqn:Hreg.
  - destruct (decide (name ∈ _applied_extensions b)) as [Happ|Happ].
    + by rewrite (base_apply_extension_skip _ _ _ Hreg Happ).
    + rewrite (base_apply_extension_first _ _ _ Hreg Happ).
      destruct (apply_extension_to ext (_query b)) as [q|e] eqn:Hq; [|done].
      rewrite Hspec in Hreg. unfold logged_once. cbn.
      rewrite (log_extension _ _ _ _ Hreg Hq). split.
      * apply NoDup_app. split_and!; [done| |apply NoDup_singleton].
        intros x Hx Hx'%list_elem_of_singleton. subst x. by apply Happ, Hin.
      * intros x [Hx|Hx%list_elem_of_singleton]%elem_of_app.
        -- apply Hin in Hx. set_solver.
        -- subst x. set_solver.
  - by rewrite base_apply_extension_unknown.
Qed.

Lemma apply_required_logged (names : list string) (b : LoaderBuilderBase Q) :
  _spec b = spec → logged_once log b →
  logged_once log (final (apply_required names) b).
Proof.
  revert b. induction names as [|n names IH]; intros b Hspec Hb; [done|].
  unfold final, apply_required; cbn. unfold bind.
  pose proof (base_apply_extension_logged b n Hspec Hb) as Hb1.
  pose proof (base_apply_extension_frame b n) as [Hs1 _].
  unfold final in Hb1, Hs1.
  destruct (base_apply_extension n b) as [[[]|e] b1]; cbn in *; [|done].
  apply IH; [congruence|done].
Qed.

Lemma base_add_sort_logged field d options (b : LoaderBuilderBase Q) :
  _spec b = spec → logged_once log b →
  logged_once log (final (base_add_sort field d options) b).
Proof.
  intros Hspec Hb. unfold final, base_add_sort, bind, get.
  destruct (sortable_fields (_spec b) !! field) as [s|] eqn:Hs; [|done].
  pose proof (apply_required_logged (sort_requires s) b Hspec Hb) as Hb1.
  unfold final in Hb1.
  destruct (apply_required (sort_requires s) b) as [[[]|e] b1]; cbn in *; [|done].
  unfold lift_result, put.
  destruct (apply_sorting s (_query b1) d) as [q|e] eqn:Hq; [|done].
  rewrite Hspec in Hs. unfold logged_once in *. cbn.
  by rewrite (log_sort _ _ _ _ _ Hs Hq).
Qed.

Lemma base_add_filter_logged field op v (b : LoaderBuilderBase Q) :
  _spec b = spec → logged_once log b →
  logged_once log (final (base_add_filter field op v) b).
Proof.
  intros Hspec Hb. unfold final, base_add_filter, bind, get.
  destruct (filterable_fields (_spec b) !! field) as [ops|] eqn:Hops; [|done].
  destruct (ops !! op) as [f|] eqn:Hf; [|done].
  pose proof (apply_required_logged (filter_requires f) b Hspec Hb) as Hb1.
  unfold final in Hb1.
  destruct (apply_required (filter_requires f) b) as [[[]|e] b1]; cbn in *; [|done].
  unfold lift_result, put.
  destruct (apply_filter f (_query b1) v) as [q|e] eqn:Hq; [|done].
  rewrite Hspec in Hops. unfold logged_once in *. cbn.
  by rewrite (log_filter _ _ _ _ _ _ _ Hops Hf Hq).
Qed.

Context {B L : Type} `{!ConfigurableLoaderBuilder B L}
  `{!Inherits B (LoaderBuilderBase Q)} `{!DerivesFromBase B L Q}.

Hypothesis log_offset : ∀ n (b : B),
  log (query_of (final (set_offset n) b)) = log (query_of b).
Hypothesis log_limit : ∀ n (b : B),
  log (query_of (final (set_limit n) b)) = log (query_of b).

Lemma perform_logged (c : call) (b : B) :
  spec_of b = spec → logged_once log (super b) →
  logged_once log (super (final (perform c) b)).
Proof.
  intros Hspec Hb.
  assert (∀ n, logged_once log (super (final (set_offset n) b))) as Hoff.
  { intros n. destruct (set_offset_frame n b) as [_ Ha].
    pose proof (log_offset n b) as Hl. unfold applied_of, query_of in *.
    unfold logged_once. by rewrite Hl, Ha. }
  destruct c as [name|field d options|field op v|n|n|page n]; cbn.
  - rewrite apply_extension_inherited, final_inherited, super_with_super.
    by apply base_apply_extension_logged.
  - rewrite add_sort_inherited, final_inherited, super_with_super.
    by apply base_add_sort_logged.
  - rewrite add_filter_inherited, final_inherited, super_with_super.
    by apply base_add_filter_logged.
  - apply Hoff.
  - destruct (set_limit_frame n b) as [_ Ha].
    pose proof (log_limit n b) as Hl. unfold applied_of, query_of in *.
    unfold logged_once. by rewrite Hl, Ha.
  - unfold set_page, final, bind.
    destruct (set_limit_frame n b) as [_ Ha].
    pose proof (log_limit n b) as Hl. unfold applied_of, query_of, final in *.
    destruct (set_limit n b) as [[[]|e] b1]; cbn in *.
    + destruct (set_offset_frame (page * n) b1) as [_ Ha1].
      pose proof (log_offset (page * n) b1) as Hl1.
      unfold applied_of, query_of, final in *.
      unfold logged_once. by rewrite Hl1, Ha1, Hl, Ha.
    + unfold logged_once. by rewrite Hl, Ha.
Qed.

(** From a builder on which nothing is logged yet, whatever the calls,
    no extension is logged twice. *)
Lemma transforms_run_once (calls : list call) (b : B) :
  spec_of b = spec → log (query_of b) = [] →
  NoDup (log (query_of (session calls b))).
Proof.
  intros Hspec Hempty.
  assert (logged_once log (super b)) as Hb.
  { unfold logged_once, query_of in *. rewrite Hempty. split.
    - constructor.
    - by intros x ?%elem_of_nil. }
  clear Hempty.
  enough (logged_once log (super (session calls b))) as [Hnd _] by exact Hnd.
  revert b Hspec Hb. induction calls as [|c calls IH]; intros b Hspec Hb; [done|].
  cbn. apply IH.
  - destruct (perform_frame c b) as [Hs _]. congruence.
  - by apply perform_logged.
Qed.

End run_once.

(** On the scenario's spec, read off the recording query: whatever the
    calls, the join is on the query at most once. *)
Example blog_joins_once (calls : list call) :
  NoDup (Probe.joins (query_of (session calls Probe.fresh_simple))).
Proof.
  apply (transforms_run_once Probe.joins Probe.blog_spec); try done.
  - intros name e q q' He. cbn in He.
    apply lookup_singleton_Some in He as [<- <-]. intros [= <-].
    unfold Probe.joins. by rewrite omap_app.
  - intros field ops op f q v q' Hops Hf Hq.
    assert (∃ fld o rq, f = Probe.filter_on fld o rq) as (fld & o & rq & ->).
    { cbn in Hops.
      apply lookup_insert_Some in Hops as [[<- <-]|[_ Hops]].
      - apply lookup_singleton_Some in Hf as [_ <-]. by eexists _, _, _.
      - apply lookup_singleton_Some in Hops as [_ <-].
        apply lookup_singleton_Some in Hf as [_ <-]. by eexists _, _, _. }
    injection Hq as <-. unfold Probe.joins. rewrite omap_app. cbn.
    by rewrite app_nil_r.
  - intros field s q d q' Hs. cbn in Hs.
    apply lookup_singleton_Some in Hs as [_ <-]. intros [= <-].
    unfold Probe.joins. rewrite omap_app. cbn. by rewrite app_nil_r.
  - apply simple_derives.
  - intros n [[sp q ap] se]. cbn. unfold Probe.joins, query_of. cbn.
    rewrite omap_app. cbn. by rewrite app_nil_r.
  - intros n [[sp q ap] se]. cbn. unfold Probe.joins, query_of. cbn.
    rewrite omap_app. cbn. by rewrite app_nil_r.
Qed.

(* ===================================================================== *)
(** * Properties of the store operations                                 *)
(* ===================================================================== *)

Import Store.

(** ** Objects already in the store stay where they are *)

Lemma load_ref (h : heap) (a : addr) (o : object) :
  h !! a = Some o → load (VRef a) h = (Ok o, h).
Proof. intros H. unfold load. by rewrite H. Qed.

Lemma alloc_run (h : heap) (o : object) :
  run (alloc o) h = (Ok (length h), h ++ [o]).
Proof. reflexivity. Qed.

Lemma lookup_fresh (h ext : heap) (o : object) :
  (h ++ o :: ext) !! length h = Some o.
Proof. by rewrite list_lookup_middle. Qed.

Lemma dict_at_app (h ext : heap) (v : value) (items : list (string * value)) :
  dict_at h v = Some items → dict_at (h ++ ext) v = Some items.
Proof.
  destruct v as [| |a]; try done. unfold dict_at.
  destruct (h !! a) as [o|] eqn:Ha; [|done].
  by rewrite (lookup_app_l_Some _ _ _ _ Ha).
Qed.

Lemma dict_at_allocated (h : heap) (v : value) (items : list (string * value)) :
  dict_at h v = Some items →
  ∃ a, v = VRef a ∧ h !! a = Some (ODict items) ∧ (a < length h)%nat.
Proof.
  destruct v as [| |a]; try done. unfold dict_at.
  destruct (h !! a) as [[]|] eqn:Ha; try done.
  intros [= ->]. exists a. split_and!; [done..|].
  by eapply lookup_lt_Some.
Qed.

Lemma py_iter_pure (v : value) (h : heap) : (py_iter v h).2 = h.
Proof.
  destruct v as [| |a]; try done. unfold py_iter, bind, load.
  destruct (h !! a) as [[]|]; done.
Qed.

Lemma py_iter_app (h ext : heap) (v : value) (xs : list value) :
  outcome (py_iter v) h = Ok xs → outcome (py_iter v) (h ++ ext) = Ok xs.
Proof.
  destruct v as [| |a]; try done. unfold outcome, py_iter, bind, load.
  destruct (h !! a) as [o|] eqn:Ha; [|done].
  rewrite (lookup_app_l_Some _ _ _ _ Ha). by destruct o.
Qed.

Lemma py_iter_allocated (h : heap) (a : addr) (xs : list value) :
  outcome (py_iter (VRef a)) h = Ok xs → (a < length h)%nat.
Proof.
  unfold outcome, py_iter, bind, load.
  destruct (h !! a) as [o|] eqn:Ha; [|done].
  intros _. by eapply lookup_lt_Some.
Qed.

Lemma py_list_run (h : heap) (v : value) (xs : list value) :
  outcome (py_iter v) h = Ok xs →
  run (py_list v) h = (Ok (VRef (length h)), h ++ [OList xs]).
Proof.
  intros H. unfold py_list, run, bind.
  pose proof (py_iter_pure v h) as Hp. unfold outcome in H.
  destruct (py_iter v h) as [r h1]. cbn in *. by subst.
Qed.

Lemma py_dict_run (h : heap) (v : value) (items : list (string * value)) :
  dict_at h v = Some items →
  run (py_dict v) h = (Ok (VRef (length h)), h ++ [ODict items]).
Proof.
  intros (a & -> & Ha & _)%dict_at_allocated.
  unfold py_dict, run, bind. by rewrite (load_ref _ _ _ Ha).
Qed.

(** Reading a list back. *)
Lemma py_iter_list (h : heap) (a : addr) (xs : list value) :
  h !! a = Some (OList xs) → outcome (py_iter (VRef a)) h = Ok xs.
Proof. intros H. unfold outcome, py_iter, bind. by rewrite (load_ref _ _ _ H). Qed.

(** ** [LoaderSpecPiece] *)

Lemma piece_init_falsy (h : heap) (v : value) :
  py_truthy v h = (Ok false, h) →
  run (LoaderSpecPiece_init v) h =
  (Ok {| _required_extensions := VRef (S (length h)) |},
   h ++ [OList []; OList []]).
Proof.
  intros H. unfold LoaderSpecPiece_init, run, bind. rewrite H. cbn.
  change (py_list (VRef (length h)) (h ++ [OList []]))
    with (run (py_list (VRef (length h))) (h ++ [OList []])).
  rewrite (py_list_run _ _ []) by apply py_iter_list, lookup_fresh.
  rewrite length_app, Nat.add_1_r. cbn. by rewrite <- app_assoc.
Qed.

Lemma piece_init_truthy (h : heap) (v : value) (xs : list value) :
  py_truthy v h = (Ok true, h) →
  outcome (py_iter v) h = Ok xs →
  run (LoaderSpecPiece_init v) h =
  (Ok {| _required_extensions := VRef (length h) |}, h ++ [OList xs]).
Proof.
  intros H Hxs. unfold LoaderSpecPiece_init, run, bind. rewrite H. cbn.
  change (py_list v h) with (run (py_list v) h).
  by rewrite (py_list_run _ _ _ Hxs).
Qed.

(** The truth value of an iterable of the store is whether it has an
    element. *)
Lemma py_truthy_iterable (h : heap) (v : value) (xs : list value) :
  outcome (py_iter v) h = Ok xs →
  py_truthy v h = (Ok (bool_decide (xs ≠ [])), h).
Proof.
  destruct v as [|s|a]; try done.
  - intros [= <-]. by destruct s.
  - unfold outcome, py_iter, py_truthy, bind, load.
    destruct (h !! a) as [[items|ys|]|]; try done.
    + intros [= <-]. by destruct items.
    + intros [= <-]. by destruct ys.
Qed.

(** C9: a piece constructed with [required_extensions] omitted or
    [None] has the empty sequence as its [required_extensions]; a piece
    constructed from an iterable has the elements of the iterable, in
    the order the iterable yields them, in a list of its own, so that
    whatever the caller's collection is changed to afterwards the
    piece's [required_extensions] stays the same. *)
Theorem piece_required_extensions (h : heap) (src : value) (xs : list value) :
  outcome (py_iter src) h = Ok xs →
  (∃ p h', run (LoaderSpecPiece_init VNone) h = (Ok p, h') ∧
           outcome (py_iter (required_extensions p)) h' = Ok []) ∧
  (∃ p h', run (LoaderSpecPiece_init src) h = (Ok p, h') ∧
           outcome (py_iter (required_extensions p)) h' = Ok xs ∧
           required_extensions p ≠ src ∧
           ∀ (a : addr) (o : object), src = VRef a →
             outcome (py_iter (required_extensions p)) (<[a := o]> h') = Ok xs).
Proof.
  intros Hxs. split.
  - eexists _, _. split; [by apply piece_init_falsy|].
    cbn. apply py_iter_list.
    change [OList []; OList []] with ([OList []] ++ [OList []]).
    rewrite app_assoc.
    replace (S (length h)) with (length (h ++ [OList []]))
      by (rewrite length_app; cbn; lia).
    apply lookup_fresh.
  - pose proof (py_truthy_iterable _ _ _ Hxs) as Ht.
    destruct xs as [|x xs].
    + rewrite bool_decide_eq_false_2 in Ht by (intros ?; done).
      eexists _, _. split; [by apply piece_init_falsy|]. cbn.
      assert ((h ++ [OList []; OList []]) !! S (length h) = Some (OList []))
        as Hnew.
      { change [OList []; OList []] with ([OList []] ++ [OList []]).
        rewrite app_assoc.
        replace (S (length h)) with (length (h ++ [OList []]))
          by (rewrite length_app; cbn; lia).
        apply lookup_fresh. }
      split; [by apply py_iter_list|]. split.
      * intros <-. apply py_iter_allocated in Hxs. lia.
      * intros a o ->. apply py_iter_allocated in Hxs.
        apply py_iter_list. rewrite list_lookup_insert_ne by lia. exact Hnew.
    + rewrite bool_decide_eq_true_2 in Ht by done.
      eexists _, _. split; [by apply piece_init_truthy|]. cbn.
      split; [apply py_iter_list, lookup_fresh|]. split.
      * intros <-. apply py_iter_allocated in Hxs. lia.
      * intros a o ->. apply py_iter_allocated in Hxs.
        apply py_iter_list. rewrite list_lookup_insert_ne by lia.
        apply lookup_fresh.
Qed.

Lemma piece_required_extensions_witness :
  (∃ p h', run (LoaderSpecPiece_init VNone) Example.blog_heap = (Ok p, h') ∧
           outcome (py_iter (required_extensions p)) h' = Ok []) ∧
  (∃ p h', run (LoaderSpecPiece_init (VRef 11%nat)) Example.blog_heap = (Ok p, h') ∧
           outcome (py_iter (required_extensions p)) h' = Ok [VStr "with_author"] ∧
           required_extensions p ≠ VRef 11%nat ∧
           ∀ (a : addr) (o : object), VRef 11%nat = VRef a →
             outcome (py_iter (required_extensions p)) (<[a := o]> h') =
             Ok [VStr "with_author"]).
Proof.
  apply (piece_required_extensions Example.blog_heap (VRef 11%nat)
           [VStr "with_author"]).
  reflexivity.
Defined.

(** The caller appends to the list it passed, or clears it: the piece
    still requires what it was constructed with. *)
Example piece_keeps_its_list :
  outcome (p <- LoaderSpecPiece_init (VRef 11%nat);;
           py_append (VRef 11%nat) (VStr "with_tags");;;
           py_iter (required_extensions p)) Example.blog_heap =
    Ok [VStr "with_author"] ∧
  outcome (p <- LoaderSpecPiece_init (VRef 11%nat);;
           py_clear (VRef 11%nat);;;
           py_iter (required_extensions p)) Example.blog_heap =
    Ok [VStr "with_author"] ∧
  outcome (py_append (VRef 11%nat) (VStr "with_tags");;;
           py_iter (VRef 11%nat)) Example.blog_heap =
    Ok [VStr "with_author"; VStr "with_tags"].
Proof. repeat split. Qed.

(** ** [clone] and the extensions *)

(** C1 (the code falls short of it): [clone] copies [extensions] with
    [list(...)], which for a mapping yields the list of its keys.  In
    the scenario's spec the original resolves ["with_author"] to the
    extension instance, while the clone's [extensions] is the list
    [["with_author"]] and subscripting it with the name raises
    [TypeError]. *)
Theorem clone_extensions_keeps_names_only :
  outcome (py_getitem (extensions Example.blog) "with_author")
    Example.blog_heap = Ok (VRef 3%nat) ∧
  outcome (c <- clone Example.blog;; load (extensions c))
    Example.blog_heap = Ok (OList [VStr "with_author"]) ∧
  outcome (c <- clone Example.blog;; py_getitem (extensions c) "with_author")
    Example.blog_heap = Raise TypeError.
Proof. repeat split. Qed.

(** ** [clone]: what it allocates *)

Lemma items_set_new (k : string) (v : value) (items : list (string * value)) :
  k ∉ keys items → items_set k v items = items ++ [(k, v)].
Proof.
  induction items as [|[k' v'] items IH]; [done|]. cbn.
  intros Hk. rewrite not_elem_of_cons in Hk. destruct Hk as [Hne Hk].
  rewrite decide_False by done. by rewrite IH.
Qed.

Lemma read_entry_Some (h : heap) (it : string * value)
  (n : string * list (string * value)) :
  read_entry h it = Some n ↔ dict_at h it.2 = Some n.2 ∧ n.1 = it.1.
Proof.
  unfold read_entry. destruct (dict_at h it.2) as [inner|]; cbn.
  - split.
    + by intros [= <-].
    + intros [[= ->] <-]. by destruct n.
  - split; [done|]. by intros [? _].
Qed.

Lemma py_items_run (h : heap) (v : value) (items : list (string * value)) :
  dict_at h v = Some items → run (py_items v) h = (Ok items, h).
Proof.
  intros (a & -> & Ha & _)%dict_at_allocated.
  unfold py_items, run, bind. by rewrite (load_ref _ _ _ Ha).
Qed.

Lemma py_setitem_run (pre post : heap) (acc : list (string * value))
  (k : string) (v : value) :
  run (py_setitem (VRef (length pre)) k v) (pre ++ ODict acc :: post) =
  (Ok tt, pre ++ ODict (items_set k v acc) :: post).
Proof.
  unfold py_setitem, run, bind.
  rewrite (load_ref _ _ _ (lookup_fresh pre post (ODict acc))).
  unfold store. rewrite insert_app_r_alt by lia.
  by rewrite Nat.sub_diag.
Qed.

(** The loop of [copy_nested]: with the new dictionary at the address
    after [pre], holding [acc], and the copies made so far behind it. *)
Lemma copy_nested_loop (pre : heap) (rest : list (string * value))
  (nested : list (string * list (string * value)))
  (acc : list (string * value)) (copies : heap) :
  Forall2 (λ it n, read_entry pre it = Some n) rest nested →
  NoDup (keys acc ++ keys rest) →
  run (for_each (λ it : string * value,
         c <- py_dict it.2;; py_setitem (VRef (length pre)) it.1 c) rest)
      (pre ++ ODict acc :: copies) =
  (Ok tt,
   pre ++ ODict (acc ++ renumber (S (length pre + length copies)) rest)
       :: copies ++ (ODict <$> nested.*2)).
Proof.
  intros Hread. revert acc copies.
  induction Hread as [|it n rest nested Hit Hrest IH]; intros acc copies Hnd.
  - cbn. by rewrite !app_nil_r.
  - apply read_entry_Some in Hit as [Hinner Hkey].
    cbn [for_each]. rewrite run_bind, run_bind.
    rewrite (py_dict_run _ _ n.2) by by apply dict_at_app.
    replace ((pre ++ ODict acc :: copies) ++ [ODict n.2])
      with (pre ++ ODict acc :: (copies ++ [ODict n.2]))
      by by rewrite <- app_assoc.
    rewrite py_setitem_run.
    assert (it.1 ∉ keys acc) as Hfresh.
    { apply NoDup_app in Hnd as (_ & Hdis & _). intros Hin.
      apply (Hdis _ Hin). cbn. left. }
    rewrite items_set_new by done.
    rewrite IH.
    + rewrite !length_app. cbn [length].
      replace (length pre + S (length copies))%nat
        with (S (length pre + length copies)) by lia.
      replace (length pre + (length copies + 1))%nat
        with (S (length pre + length copies)) by lia.
      cbn. by rewrite <- !app_assoc.
    + unfold keys in *. rewrite fmap_app. cbn.
      rewrite <- app_assoc. cbn. done.
Qed.

Lemma renumber_keys (base : addr) (its : list (string * value)) :
  keys (renumber base its) = keys its.
Proof.
  revert base. induction its as [|it its IH]; intros base; [done|].
  cbn. f_equal. apply IH.
Qed.

Lemma renumber_addresses (base : addr) (its : list (string * value)) (a : addr) :
  a ∈ renumber base its ≫= (λ it, address_of it.2) → (base ≤ a)%nat.
Proof.
  revert base. induction its as [|it its IH]; intros base; cbn.
  - by intros ?%elem_of_nil.
  - rewrite elem_of_cons. intros [->|Hin]; [lia|].
    apply IH in Hin. lia.
Qed.

(** The copies read back as the originals do. *)
Lemma renumber_read (h front back : heap) (its : list (string * value))
  (nested : list (string * list (string * value))) :
  Forall2 (λ it n, read_entry h it = Some n) its nested →
  Forall2 (λ it n, read_entry (front ++ (ODict <$> nested.*2) ++ back) it = Some n)
    (renumber (length front) its) nested.
Proof.
  intros Hread. revert front.
  induction Hread as [|it n its nested Hit Hrest IH]; intros front; cbn.
  - constructor.
  - apply read_entry_Some in Hit as [_ Hkey]. constructor.
    + apply read_entry_Some. cbn. rewrite lookup_fresh. done.
    + specialize (IH (front ++ [ODict n.2])).
      rewrite length_app, Nat.add_1_r in IH.
      by rewrite <- app_assoc in IH.
Qed.

Lemma clone_run (h : heap) (s : LoaderSpec) (sf its : list (string * value))
  (ds ex : list value) (nested : list (string * list (string * value))) :
  sortable_view h s = Some sf →
  outcome (py_iter (default_sort_by s)) h = Ok ds →
  dict_at h (filterable_fields s) = Some its →
  Forall2 (λ it n, read_entry h it = Some n) its nested →
  NoDup (keys its) →
  outcome (py_iter (extensions s)) h = Ok ex →
  run (clone s) h =
  (Ok {| sortable_fields := VRef (length h);
         default_sort_by := VRef (S (length h));
         filterable_fields := VRef (S (S (length h)));
         extensions := VRef (S (S (S (length h + length its)))) |},
   (h ++ [ODict sf; OList ds]) ++
     ODict (renumber (S (S (S (length h)))) its) ::
     (ODict <$> nested.*2) ++ [OList ex]).
Proof.
  intros Hsf Hds Hff Hnested Hnd Hex.
  pose proof (Forall2_length _ _ _ Hnested) as Hlen.
  unfold clone. rewrite run_bind, (py_dict_run _ _ sf) by done.
  rewrite run_bind, (py_list_run _ _ ds) by by apply py_iter_app.
  rewrite <- app_assoc. cbn [app].
  set (h2 := h ++ [ODict sf; OList ds]).
  assert (length h2 = S (S (length h))) as Hlen2.
  { unfold h2. rewrite length_app. cbn. lia. }
  rewrite run_bind. unfold copy_nested.
  rewrite run_bind, (py_items_run _ _ its) by by apply dict_at_app.
  rewrite run_bind, alloc_run.
  rewrite run_bind, (copy_nested_loop h2 its nested [] []); cycle 1.
  { eapply Forall2_impl; [exact Hnested|]. intros it n Hit.
    apply read_entry_Some in Hit as [Hit Hk]. apply read_entry_Some.
    split; [|done]. by apply dict_at_app. }
  { done. }
  cbn [app length]. rewrite Nat.add_0_r, Hlen2, ret_run.
  rewrite run_bind, (py_list_run _ _ ex); cycle 1.
  { replace (h2 ++ ODict (renumber (S (S (S (length h)))) its)
                  :: (ODict <$> nested.*2))
      with (h ++ ([ODict sf; OList ds] ++
                  ODict (renumber (S (S (S (length h)))) its)
                  :: (ODict <$> nested.*2)))
      by (unfold h2; by rewrite <- app_assoc).
    by apply py_iter_app. }
  rewrite ret_run. f_equal.
  - rewrite !length_app. cbn [length]. rewrite !length_fmap, <- Hlen.
    rewrite Hlen2.
    replace (length h + 1)%nat with (S (length h)) by lia.
    replace (S (S (length h)) + S (length its))%nat
      with (S (S (S (length h + length its)))) by lia.
    done.
  - by rewrite <- app_assoc.
Qed.

(** ** What a view depends on *)

Lemma dict_at_agree (g1 g2 : heap) (v : value) :
  (∀ a, a ∈ address_of v → g2 !! a = g1 !! a) →
  dict_at g2 v = dict_at g1 v.
Proof.
  destruct v as [| |a]; try done. intros H. unfold dict_at.
  rewrite (H a); [done|]. cbn. left.
Qed.

Lemma read_entry_agree (g1 g2 : heap) (it : string * value) :
  (∀ a, a ∈ address_of it.2 → g2 !! a = g1 !! a) →
  read_entry g2 it = read_entry g1 it.
Proof. intros H. unfold read_entry. by rewrite (dict_at_agree g1 g2). Qed.

Lemma mapM_read_agree (g1 g2 : heap) (its : list (string * value)) :
  (∀ a, a ∈ its ≫= (λ it, address_of it.2) → g2 !! a = g1 !! a) →
  mapM (read_entry g2) its = mapM (read_entry g1) its.
Proof.
  induction its as [|it its IH]; [done|]. intros H.
  change (mapM (read_entry g2) (it :: its))
    with (y ← read_entry g2 it; k ← mapM (read_entry g2) its; mret (y :: k)).
  change (mapM (read_entry g1) (it :: its))
    with (y ← read_entry g1 it; k ← mapM (read_entry g1) its; mret (y :: k)).
  rewrite IH, (read_entry_agree g1 g2); [done|..].
  - intros a Ha. apply H. cbn. apply elem_of_app. by left.
  - intros a Ha. apply H. cbn. apply elem_of_app. by right.
Qed.

(** The views of a spec only depend on its mapping objects. *)
Lemma views_agree (g1 g2 : heap) (s : LoaderSpec) :
  (∀ a, a ∈ mapping_objects g1 s → g2 !! a = g1 !! a) →
  sortable_view g2 s = sortable_view g1 s ∧
  filterable_view g2 s = filterable_view g1 s ∧
  mapping_objects g2 s = mapping_objects g1 s.
Proof.
  unfold mapping_objects, sortable_view, filterable_view, nested_at.
  intros H.
  assert (dict_at g2 (sortable_fields s) = dict_at g1 (sortable_fields s)) as ->.
  { apply dict_at_agree. intros a Ha. apply H.
    apply elem_of_app. by left. }
  assert (dict_at g2 (filterable_fields s) = dict_at g1 (filterable_fields s))
    as Hff.
  { apply dict_at_agree. intros a Ha. apply H.
    apply elem_of_app. right. apply elem_of_app. by left. }
  rewrite Hff. split; [done|]. split; [|done].
  destruct (dict_at g1 (filterable_fields s)) as [its|] eqn:Hits; [|done].
  cbn. apply mapM_read_agree. intros a Ha. apply H.
  apply elem_of_app. right. apply elem_of_app. by right.
Qed.

(** The mapping objects of a spec that reads well are in the store. *)
Lemma mapping_objects_allocated (h : heap) (s : LoaderSpec) (a : addr) :
  is_Some (sortable_view h s) → is_Some (filterable_view h s) →
  a ∈ mapping_objects h s → (a < length h)%nat.
Proof.
  unfold sortable_view, filterable_view, nested_at, mapping_objects.
  intros [sf Hsf] [nested Hn].
  destruct (dict_at h (filterable_fields s)) as [its|] eqn:Hits; [|done].
  cbn in Hn. rewrite !elem_of_app. intros [Ha|[Ha|Ha]].
  - apply dict_at_allocated in Hsf as (a' & Hv & _ & Hlt).
    rewrite Hv in Ha. cbn in Ha. apply list_elem_of_singleton in Ha. by subst.
  - apply dict_at_allocated in Hits as (a' & Hv & _ & Hlt).
    rewrite Hv in Ha. cbn in Ha. apply list_elem_of_singleton in Ha. by subst.
  - apply mapM_Some in Hn. clear Hits.
    induction Hn as [|it n its nested Hit Hrest IH]; cbn in Ha.
    + by apply elem_of_nil in Ha.
    + apply elem_of_app in Ha as [Ha|Ha]; [|by apply IH].
      apply read_entry_Some in Hit as [Hit _].
      apply dict_at_allocated in Hit as (a' & Hv & _ & Hlt).
      rewrite Hv in Ha. cbn in Ha. apply list_elem_of_singleton in Ha. by subst.
Qed.

(** ** Mutations touch one object *)

Lemma mutate_other (m : mutation) (g : heap) (a : addr) :
  a ≠ target m → final (mutate m) g !! a = g !! a.
Proof.
  intros Hne. unfold final.
  destruct m as [d k v|d k]; cbn in *;
    unfold py_setitem, py_delitem, bind, load, store;
    destruct (g !! d) as [[items| |]|]; cbn; try done.
  - by rewrite list_lookup_insert_ne.
  - destruct (items_get k items); cbn; [|done].
    by rewrite list_lookup_insert_ne.
Qed.

Lemma mutate_all_other (ms : list mutation) (g : heap) (a : addr) :
  Forall (λ m, target m ≠ a) ms → mutate_all ms g !! a = g !! a.
Proof.
  revert g. induction ms as [|m ms IH]; intros g Hms; [done|].
  apply Forall_cons in Hms as [Hm Hms]. cbn.
  unfold mutate_all in IH. rewrite IH by done.
  by apply mutate_other.
Qed.

(** ** One mutation and the keys both sides have *)

Lemma items_get_set (k k' : string) (v : value) (items : list (string * value)) :
  items_get k' (items_set k v items) =
  if decide (k' = k) then Some v else items_get k' items.
Proof.
  induction items as [|[k0 v0] items IH]; cbn.
  - by destruct (decide (k' = k)).
  - destruct (decide (k = k0)) as [->|Hne]; cbn.
    + by destruct (decide (k' = k0)).
    + destruct (decide (k' = k0)) as [->|Hne'].
      * by rewrite decide_False by done.
      * exact IH.
Qed.

Lemma items_get_del (k k' : string) (items : list (string * value)) :
  items_get k' (items_del k items) =
  if decide (k' = k) then None else items_get k' items.
Proof.
  induction items as [|[k0 v0] items IH]; cbn.
  - by destruct (decide (k' = k)).
  - destruct (decide (k = k0)) as [->|Hne]; cbn.
    + rewrite IH. destruct (decide (k' = k0)); done.
    + destruct (decide (k' = k0)) as [->|Hne']; [|exact IH].
      by rewrite decide_False by done.
Qed.

Lemma one_change_shares (old new : list (string * value)) (k : string)
  (v v' : value) :
  one_change old new →
  items_get k new = Some v → items_get k old = Some v' → v = v'.
Proof.
  intros [->|[(k0 & v0 & Hnone & ->)|(k0 & ->)]].
  - congruence.
  - rewrite items_get_set. destruct (decide (k = k0)) as [->|]; congruence.
  - rewrite items_get_del. destruct (decide (k = k0)); congruence.
Qed.

(** A dictionary of the store is still a dictionary after a mutation,
    with at most one change. *)
Lemma mutate_step (g : heap) (m : mutation) (x : value)
  (old : list (string * value)) :
  adds_or_removes g m →
  dict_at g x = Some old →
  ∃ new, dict_at (final (mutate m) g) x = Some new ∧ one_change old new.
Proof.
  intros Hm (a & -> & Ha & Hlt)%dict_at_allocated.
  destruct (decide (a = target m)) as [->|Hne].
  - unfold final, dict_at.
    destruct m as [d k v|d k]; cbn in *;
      unfold py_setitem, py_delitem, bind, load, store; rewrite Ha; cbn.
    + rewrite list_lookup_insert_eq by done. eexists. split; [done|].
      right. left. exists k, v. split; [|done]. by apply Hm.
    + destruct (items_get k old); cbn.
      * rewrite list_lookup_insert_eq by done. eexists. split; [done|].
        right. right. by exists k.
      * rewrite Ha. eexists. split; [done|]. by left.
  - exists old. split; [|by left]. unfold dict_at.
    by rewrite mutate_other, Ha.
Qed.

Lemma nested_lookup (g : heap) (top : list (string * value))
  (nested : list (string * list (string * value))) (field : string)
  (inner : list (string * value)) :
  Forall2 (λ it n, read_entry g it = Some n) top nested →
  items_get field nested = Some inner →
  ∃ r, items_get field top = Some r ∧ dict_at g r = Some inner.
Proof.
  induction 1 as [|it n top nested Hit Hrest IH]; [done|].
  apply read_entry_Some in Hit as [Hit Hk].
  destruct it as [k r], n as [k' inner']. cbn in *. subst k'.
  destruct (decide (field = k)) as [->|Hne].
  - intros [= <-]. by exists r.
  - exact IH.
Qed.

(** After one addition or removal a spec resolves every key it still
    has, and had before, to the object it resolved it to before. *)
Lemma one_mutation_shares (g : heap) (m : mutation) (s : LoaderSpec) :
  adds_or_removes g m →
  (∀ k v v', sort_of (final (mutate m) g) s k = Some v →
             sort_of g s k = Some v' → v = v') ∧
  (∀ f op v v', filter_of (final (mutate m) g) s f op = Some v →
                filter_of g s f op = Some v' → v = v').
Proof.
  intros Hm. set (g' := final (mutate m) g). split.
  - intros k v v'. unfold sort_of, sortable_view.
    destruct (dict_at g (sortable_fields s)) as [old|] eqn:Hold; [|done].
    destruct (mutate_step g m _ _ Hm Hold) as (new & Hnew & Hch).
    fold g' in Hnew. rewrite Hnew. cbn. by apply one_change_shares.
  - intros f op v v'. unfold filter_of, filterable_view, nested_at.
    destruct (dict_at g (filterable_fields s)) as [top|] eqn:Htop; [|done].
    destruct (mutate_step g m _ _ Hm Htop) as (top' & Htop' & Hch).
    fold g' in Htop'. rewrite Htop'. cbn.
    destruct (mapM (read_entry g') top') as [nested'|] eqn:Hn'; [|done].
    destruct (mapM (read_entry g) top) as [nested|] eqn:Hn; [|done].
    cbn. apply mapM_Some in Hn'. apply mapM_Some in Hn.
    destruct (items_get f nested') as [inner'|] eqn:Hi'; [|done].
    destruct (items_get f nested) as [inner|] eqn:Hi; [|done].
    cbn. intros Hv Hv'.
    destruct (nested_lookup _ _ _ _ _ Hn' Hi') as (r' & Hr' & Hd').
    destruct (nested_lookup _ _ _ _ _ Hn Hi) as (r & Hr & Hd).
    assert (r' = r) as -> by by eapply one_change_shares.
    destruct (mutate_step g m _ _ Hm Hd) as (new & Hnew & Hch').
    fold g' in Hnew. rewrite Hd' in Hnew. injection Hnew as ->.
    by eapply one_change_shares.
Qed.

(** ** [clone]: new containers, shared instances *)

(** The clone of a well-formed spec: the store only grows, the clone
    reads as the original does, and its mapping objects are new. *)
Lemma clone_layout (h : heap) (s : LoaderSpec) :
  spec_ok h s →
  ∃ c ext,
    run (clone s) h = (Ok c, h ++ ext) ∧
    sortable_view (h ++ ext) c = sortable_view h s ∧
    filterable_view (h ++ ext) c = filterable_view h s ∧
    (∀ a, a ∈ mapping_objects (h ++ ext) c → (length h ≤ a)%nat) ∧
    ∃ names, outcome (py_iter (extensions s)) h = Ok names ∧
             outcome (load (extensions c)) (h ++ ext) = Ok (OList names).
Proof.
  intros [[sf Hsf] [nested Hnested] Hnd [ds Hds] [ex Hex]].
  pose proof Hnested as Hview.
  unfold filterable_view, nested_at in Hnested.
  destruct (dict_at h (filterable_fields s)) as [its|] eqn:Hits; [|done].
  cbn in Hnested. apply mapM_Some in Hnested.
  specialize (Hnd its eq_refl).
  eexists _, ([ODict sf; OList ds] ++
              ODict (renumber (S (S (S (length h)))) its) ::
              (ODict <$> nested.*2) ++ [OList ex]).
  rewrite app_assoc.
  split; [by apply clone_run|].
  set (h2 := h ++ [ODict sf; OList ds]).
  assert (length h2 = S (S (length h))) as Hlen2.
  { unfold h2. rewrite length_app. cbn. lia. }
  assert (dict_at
            (h2 ++ ODict (renumber (S (S (S (length h)))) its) ::
               (ODict <$> nested.*2) ++ [OList ex])
            (VRef (S (S (length h)))) =
          Some (renumber (S (S (S (length h)))) its)) as Htop.
  { unfold dict_at. rewrite <- Hlen2. by rewrite lookup_fresh. }
  split_and!.
  - rewrite Hsf. unfold sortable_view, dict_at, h2. cbn.
    rewrite <- !app_assoc. cbn. by rewrite lookup_fresh.
  - rewrite Hview. unfold filterable_view, nested_at.
    cbn [filterable_fields]. rewrite Htop. cbn.
    apply mapM_Some.
    pose proof (renumber_read h
                  (h2 ++ [ODict (renumber (S (S (S (length h)))) its)])
                  [OList ex] its nested Hnested) as Hread.
    rewrite length_app, Hlen2, Nat.add_1_r in Hread.
    by rewrite <- app_assoc in Hread.
  - intros a. unfold mapping_objects. cbn [sortable_fields filterable_fields].
    rewrite Htop. cbn [address_of]. rewrite !elem_of_app.
    intros [Ha|[Ha|Ha]].
    + apply list_elem_of_singleton in Ha. lia.
    + apply list_elem_of_singleton in Ha. lia.
    + apply renumber_addresses in Ha. lia.
  - exists ex. split; [done|]. cbn [extensions].
    pose proof (Forall2_length _ _ _ Hnested) as Hlen.
    replace (S (S (S (length h + length its))))
      with (length (h2 ++ ODict (renumber (S (S (S (length h)))) its) ::
                      (ODict <$> nested.*2))).
    + unfold outcome.
      replace (h2 ++ ODict (renumber (S (S (S (length h)))) its) ::
                 (ODict <$> nested.*2) ++ [OList ex])
        with ((h2 ++ ODict (renumber (S (S (S (length h)))) its) ::
                 (ODict <$> nested.*2)) ++ [OList ex])
        by by rewrite <- app_assoc.
      by rewrite (load_ref _ _ _ (lookup_fresh _ [] (OList ex))).
    + rewrite length_app. cbn [length]. rewrite !length_fmap, Hlen2. lia.
Qed.

(** C5: the clone of a well-formed spec has sort and filter mappings of
    its own.  Right after [clone] the clone's mappings read as the
    original's, with the same instances.  Entries added to or removed
    from the clone's sort mapping or either level of its filter mapping
    leave what the original's mappings read as unchanged, and the other
    way round.  After one addition or removal on either side, every key
    the two resolve, they resolve to the same instance. *)
Theorem clone_mappings_independent (h : heap) (s : LoaderSpec) :
  spec_ok h s →
  ∃ c h',
    run (clone s) h = (Ok c, h') ∧
    (sortable_view h' c = sortable_view h s ∧
     filterable_view h' c = filterable_view h s) ∧
    (∀ ms, Forall (λ m, target m ∈ mapping_objects h' c) ms →
       sortable_view (mutate_all ms h') s = sortable_view h s ∧
       filterable_view (mutate_all ms h') s = filterable_view h s) ∧
    (∀ ms, Forall (λ m, target m ∈ mapping_objects h' s) ms →
       sortable_view (mutate_all ms h') c = sortable_view h' c ∧
       filterable_view (mutate_all ms h') c = filterable_view h' c) ∧
    (∀ m, target m ∈ mapping_objects h' c ∨ target m ∈ mapping_objects h' s →
       adds_or_removes h' m →
       (∀ k v v', sort_of (final (mutate m) h') c k = Some v →
                  sort_of (final (mutate m) h') s k = Some v' → v = v') ∧
       (∀ f op v v', filter_of (final (mutate m) h') c f op = Some v →
                     filter_of (final (mutate m) h') s f op = Some v' →
                     v = v')).
Proof.
  intros Hok.
  destruct (clone_layout h s Hok) as (c & ext & Hrun & Hsv & Hfv & Hnew & _).
  set (h' := h ++ ext) in *.
  exists c, h'. split; [exact Hrun|]. split; [done|].
  assert (∀ a, a ∈ mapping_objects h s → (a < length h)%nat) as Hold.
  { intros a. apply mapping_objects_allocated; apply Hok. }
  destruct (views_agree h h' s) as (Hsv0 & Hfv0 & Hmo).
  { intros a Ha%Hold. unfold h'. by rewrite lookup_app_l. }
  assert (∀ ms, Forall (λ m, target m ∈ mapping_objects h' c) ms →
            sortable_view (mutate_all ms h') s = sortable_view h' s ∧
            filterable_view (mutate_all ms h') s = filterable_view h' s ∧
            mapping_objects (mutate_all ms h') s = mapping_objects h' s)
    as Hclone_mut.
  { intros ms Hms. apply views_agree. intros a Ha.
    apply mutate_all_other. eapply Forall_impl; [exact Hms|].
    intros m Hm%Hnew. rewrite Hmo in Ha. apply Hold in Ha. cbn. lia. }
  assert (∀ ms, Forall (λ m, target m ∈ mapping_objects h' s) ms →
            sortable_view (mutate_all ms h') c = sortable_view h' c ∧
            filterable_view (mutate_all ms h') c = filterable_view h' c ∧
            mapping_objects (mutate_all ms h') c = mapping_objects h' c)
    as Horig_mut.
  { intros ms Hms. apply views_agree. intros a Ha%Hnew.
    apply mutate_all_other. eapply Forall_impl; [exact Hms|].
    intros m Hm. cbn in Hm. rewrite Hmo in Hm. apply Hold in Hm. lia. }
  split_and!.
  - intros ms Hms. destruct (Hclone_mut ms Hms) as (-> & -> & _). done.
  - intros ms Hms. destruct (Horig_mut ms Hms) as (-> & -> & _). done.
  - intros m Htarget Hm.
    destruct Htarget as [Ht|Ht].
    + destruct (Hclone_mut [m]) as (Hs1 & Hf1 & _); [by constructor|].
      cbn in Hs1, Hf1.
      destruct (one_mutation_shares h' m c Hm) as [Hsort Hfilter].
      split.
      * intros k v v' Hc Hs. eapply Hsort; [exact Hc|].
        unfold sort_of in *. by rewrite Hsv, <- Hsv0, <- Hs1.
      * intros f op v v' Hc Hs. eapply Hfilter; [exact Hc|].
        unfold filter_of in *. by rewrite Hfv, <- Hfv0, <- Hf1.
    + destruct (Horig_mut [m]) as (Hs1 & Hf1 & _); [by constructor|].
      cbn in Hs1, Hf1.
      destruct (one_mutation_shares h' m s Hm) as [Hsort Hfilter].
      split.
      * intros k v v' Hc Hs. symmetry. eapply Hsort; [exact Hs|].
        unfold sort_of in *. by rewrite Hsv0, <- Hsv, <- Hs1.
      * intros f op v v' Hc Hs. symmetry. eapply Hfilter; [exact Hs|].
        unfold filter_of in *. by rewrite Hfv0, <- Hfv, <- Hf1.
Qed.

Lemma clone_mappings_independent_witness :
  ∃ c h',
    run (clone Example.blog) Example.blog_heap = (Ok c, h') ∧
    (sortable_view h' c = sortable_view Example.blog_heap Example.blog ∧
     filterable_view h' c = filterable_view Example.blog_heap Example.blog) ∧
    (∀ ms, Forall (λ m, target m ∈ mapping_objects h' c) ms →
       sortable_view (mutate_all ms h') Example.blog =
         sortable_view Example.blog_heap Example.blog ∧
       filterable_view (mutate_all ms h') Example.blog =
         filterable_view Example.blog_heap Example.blog) ∧
    (∀ ms, Forall (λ m, target m ∈ mapping_objects h' Example.blog) ms →
       sortable_view (mutate_all ms h') c = sortable_view h' c ∧
       filterable_view (mutate_all ms h') c = filterable_view h' c) ∧
    (∀ m, target m ∈ mapping_objects h' c ∨
          target m ∈ mapping_objects h' Example.blog →
       adds_or_removes h' m →
       (∀ k v v', sort_of (final (mutate m) h') c k = Some v →
                  sort_of (final (mutate m) h') Example.blog k = Some v' →
                  v = v') ∧
       (∀ f op v v', filter_of (final (mutate m) h') c f op = Some v →
                     filter_of (final (mutate m) h') Example.blog f op = Some v' →
                     v = v')).
Proof.
  apply (clone_mappings_independent Example.blog_heap Example.blog).
  split.
  - eexists. reflexivity.
  - eexists. reflexivity.
  - intros its [= <-]. apply (bool_decide_unpack _). vm_compute. exact I.
  - eexists. reflexivity.
  - eexists. reflexivity.
Defined.

(** A run of it: the clone drops the sort on ["created_at"] and gets an
    operator ["lt"] on ["status"]; the original still sorts on
    ["created_at"], knows no ["lt"], and both resolve ["eq"] on
    ["status"] to the same filter. *)
Example clone_then_mutate :
  let script (read : LoaderSpec → LoaderSpec → M heap value) :=
    c <- clone Example.blog;;
    py_delitem (sortable_fields c) "created_at";;;
    ops <- py_getitem (filterable_fields c) "status";;
    py_setitem ops "lt" (VRef 2%nat);;;
    read Example.blog c in
  outcome (script (λ s c, py_getitem (sortable_fields s) "created_at"))
    Example.blog_heap = Ok (VRef 0%nat) ∧
  outcome (script (λ s c, py_getitem (sortable_fields c) "created_at"))
    Example.blog_heap = Raise (KeyError "created_at") ∧
  outcome (script (λ s c, ops <- py_getitem (filterable_fields s) "status";;
                          py_getitem ops "lt"))
    Example.blog_heap = Raise (KeyError "lt") ∧
  outcome (script (λ s c, ops <- py_getitem (filterable_fields c) "status";;
                          py_getitem ops "lt"))
    Example.blog_heap = Ok (VRef 2%nat) ∧
  outcome (script (λ s c, ops <- py_getitem (filterable_fields s) "status";;
                          py_getitem ops "eq"))
    Example.blog_heap = Ok (VRef 1%nat) ∧
  outcome (script (λ s c, ops <- py_getitem (filterable_fields c) "status";;
                          py_getitem ops "eq"))
    Example.blog_heap = Ok (VRef 1%nat).
Proof. repeat split. Qed.

(** The general form of what C1 runs into: when [extensions] is a
    mapping, the clone's [extensions] is the list of its keys, and no
    name resolves on it. *)
Lemma clone_extensions_of_mapping (h : heap) (s : LoaderSpec)
  (items : list (string * value)) :
  spec_ok h s →
  dict_at h (extensions s) = Some items →
  ∃ c h', run (clone s) h = (Ok c, h') ∧
          outcome (load (extensions c)) h' = Ok (OList (VStr <$> keys items)) ∧
          ∀ name, outcome (py_getitem (extensions c) name) h' = Raise TypeError.
Proof.
  intros Hok Hitems.
  destruct (clone_layout h s Hok)
    as (c & ext & Hrun & _ & _ & _ & names & Hnames & Hload).
  exists c, (h ++ ext). split; [done|].
  apply dict_at_allocated in Hitems as (a & Hv & Ha & _).
  rewrite Hv in Hnames. unfold outcome, py_iter, bind in Hnames.
  rewrite (load_ref _ _ _ Ha) in Hnames. cbn in Hnames.
  injection Hnames as <-. split; [done|].
  intros name. unfold outcome, py_getitem, bind in *.
  destruct (load (extensions c) (h ++ ext)) as [[o|e] g]; cbn in *; [|done].
  by injection Hload as ->.
Qed.

(* ===================================================================== *)
(** * Further properties of the pieces and of [clone]                    *)
(* ===================================================================== *)

(** ** [LoaderSpecPiece.__init__] and its property *)



(** What the constructor leaves for an iterable: a piece whose list is
    a new object holding the elements. *)
Lemma piece_init_iterable (h : heap) (src : value) (xs : list value) :
  outcome (py_iter src) h = Ok xs →
  ∃ a ext,
    run (LoaderSpecPiece_init src) h =
      (Ok {| _required_extensions := VRef a |}, h ++ ext) ∧
    (h ++ ext) !! a = Some (OList xs) ∧
    (length h ≤ a)%nat.
Proof.
  intros Hxs. pose proof (py_truthy_iterable _ _ _ Hxs) as Ht.
  destruct xs as [|x xs].
  - rewrite bool_decide_eq_false_2 in Ht by (intros ?; done).
    exists (S (length h)), [OList []; OList []].
    split; [by apply piece_init_falsy|]. split; [|lia].
    change [OList []; OList []] with ([OList []] ++ [OList []]).
    rewrite app_assoc.
    replace (S (length h)) with (length (h ++ [OList []]))
      by (rewrite length_app; cbn; lia).
    apply lookup_fresh.
  - rewrite bool_decide_eq_true_2 in Ht by done.
    exists (length h), [OList (x :: xs)].
    split; [by apply piece_init_truthy|]. split; [apply lookup_fresh|lia].
Qed.


Lemma py_append_run (pre post : heap) (xs : list value) (v : value) :
  run (py_append (VRef (length pre)) v) (pre ++ OList xs :: post) =
  (Ok tt, pre ++ OList (xs ++ [v]) :: post).
Proof.
  unfold py_append, run, bind.
  rewrite (load_ref _ _ _ (lookup_fresh pre post (OList xs))).
  unfold store. rewrite insert_app_r_alt by lia.
  by rewrite Nat.sub_diag.
Qed.

(** Appending to a list of the store: the list gets the element, every
    other object stays. *)
Lemma py_append_at (g : heap) (a : addr) (xs : list value) (v : value) :
  g !! a = Some (OList xs) →
  run (py_append (VRef a) v) g = (Ok tt, <[a := OList (xs ++ [v])]> g).
Proof.
  intros Ha. unfold py_append, run, bind. by rewrite (load_ref _ _ _ Ha).
Qed.

(** The property [required_extensions] hands out the piece's own list,
    not a copy: an element appended through it is required by the piece
    from then on. *)
Theorem required_extensions_is_the_list (h : heap) (src : value)
  (xs : list value) (v : value) :
  outcome (py_iter src) h = Ok xs →
  outcome (p <- LoaderSpecPiece_init src;;
           py_append (required_extensions p) v;;;
           py_iter (required_extensions p)) h = Ok (xs ++ [v]).
Proof.
  intros Hxs.
  destruct (piece_init_iterable h src xs Hxs) as (a & ext & Hrun & Ha & Hge).
  unfold outcome.
  change ((p <- LoaderSpecPiece_init src;;
           py_append (required_extensions p) v;;;
           py_iter (required_extensions p)) h)
    with (run (p <- LoaderSpecPiece_init src;;
               py_append (required_extensions p) v;;;
               py_iter (required_extensions p)) h).
  rewrite run_bind, Hrun. cbn [required_extensions _required_extensions].
  rewrite run_bind, (py_append_at _ _ _ _ Ha).
  apply py_iter_list. apply list_lookup_insert_eq.
  by eapply lookup_lt_Some.
Qed.

Lemma required_extensions_is_the_list_witness :
  outcome (p <- LoaderSpecPiece_init (VRef 11%nat);;
           py_append (required_extensions p) (VStr "with_tags");;;
           py_iter (required_extensions p)) Example.blog_heap =
  Ok ([VStr "with_author"] ++ [VStr "with_tags"]).
Proof.
  apply (required_extensions_is_the_list Example.blog_heap (VRef 11%nat)
           [VStr "with_author"] (VStr "with_tags")).
  reflexivity.
Defined.





(** ** [clone]: the objects it makes *)

(** Everything [clone] does to the store of a well-formed spec: the new
    objects, in the order they are made, behind the old store. *)
Lemma clone_objects (h : heap) (s : LoaderSpec) :
  spec_ok h s →
  ∃ sf ds its nested ex,
    sortable_view h s = Some sf ∧
    outcome (py_iter (default_sort_by s)) h = Ok ds ∧
    dict_at h (filterable_fields s) = Some its ∧
    filterable_view h s = Some nested ∧
    length nested = length its ∧
    NoDup (keys its) ∧
    outcome (py_iter (extensions s)) h = Ok ex ∧
    run (clone s) h =
      (Ok {| sortable_fields := VRef (length h);
             default_sort_by := VRef (S (length h));
             filterable_fields := VRef (S (S (length h)));
             extensions := VRef (S (S (S (length h + length its)))) |},
       h ++ [ODict sf; OList ds;
             ODict (renumber (S (S (S (length h)))) its)] ++
            (ODict <$> nested.*2) ++ [OList ex]).
Proof.
  intros [[sf Hsf] [nested Hnested] Hnd [ds Hds] [ex Hex]].
  pose proof Hnested as Hview.
  unfold filterable_view, nested_at in Hnested.
  destruct (dict_at h (filterable_fields s)) as [its|] eqn:Hits; [|done].
  cbn in Hnested. apply mapM_Some in Hnested.
  exists sf, ds, its, nested, ex. split_and!; try done.
  - symmetry. by eapply Forall2_length.
  - by apply Hnd.
  - rewrite (clone_run h s sf its ds ex nested) by (done || by apply Hnd).
    f_equal. rewrite <- app_assoc. done.
Qed.

Lemma renumber_address_list (base : addr) (its : list (string * value)) :
  renumber base its ≫= (λ it, address_of it.2) = seq base (length its).
Proof.
  revert base. induction its as [|it its IH]; intros base; [done|].
  cbn. f_equal. apply IH.
Qed.

(** [clone] changes no object that is already there, the containers of
    the original included, and makes exactly one new object per
    container: four for the attributes and one for every field of the
    filter mapping.  No filter, sort or extension instance is copied. *)
Theorem clone_leaves_store (h : heap) (s : LoaderSpec) :
  spec_ok h s →
  ∃ c ext,
    run (clone s) h = (Ok c, h ++ ext) ∧
    (∀ a o, h !! a = Some o → (h ++ ext) !! a = Some o) ∧
    (∀ its, dict_at h (filterable_fields s) = Some its →
            length ext = (4 + length its)%nat) ∧
    Forall (λ o, match o with OInstance _ => False | _ => True end) ext.
Proof.
  intros Hok.
  destruct (clone_objects h s Hok)
    as (sf & ds & its & nested & ex & _ & _ & Hits & _ & Hlen & _ & _ & Hrun).
  eexists _, _. split; [exact Hrun|]. split_and!.
  - intros a o Ha. by apply lookup_app_l_Some.
  - intros its' Hits'. rewrite Hits in Hits'. injection Hits' as <-.
    rewrite !length_app, !length_fmap. cbn. lia.
  - apply Forall_app. split; [by repeat constructor|].
    apply Forall_app. split; [|by repeat constructor].
    apply Forall_fmap. by apply Forall_true.
Qed.

Lemma clone_leaves_store_witness :
  ∃ c ext,
    run (clone Example.blog) Example.blog_heap = (Ok c, Example.blog_heap ++ ext) ∧
    (∀ a o, Example.blog_heap !! a = Some o →
            (Example.blog_heap ++ ext) !! a = Some o) ∧
    (∀ its, dict_at Example.blog_heap (filterable_fields Example.blog) = Some its →
            length ext = (4 + length its)%nat) ∧
    Forall (λ o, match o with OInstance _ => False | _ => True end) ext.
Proof.
  apply (clone_leaves_store Example.blog_heap Example.blog).
  split.
  - eexists. reflexivity.
  - eexists. reflexivity.
  - intros its [= <-]. apply (bool_decide_unpack _). vm_compute. exact I.
  - eexists. reflexivity.
  - eexists. reflexivity.
Defined.

(** The mapping objects of a clone are pairwise different objects, also
    where the original used one operator dictionary for several
    fields. *)
Theorem clone_mapping_objects_distinct (h : heap) (s : LoaderSpec) :
  spec_ok h s →
  ∃ c h', run (clone s) h = (Ok c, h') ∧ NoDup (mapping_objects h' c).
Proof.
  intros Hok.
  destruct (clone_objects h s Hok)
    as (sf & ds & its & nested & ex & _ & _ & _ & _ & _ & _ & _ & Hrun).
  eexists _, _. split; [exact Hrun|].
  unfold mapping_objects. cbn [sortable_fields filterable_fields address_of].
  assert (dict_at
            (h ++ [ODict sf; OList ds;
                   ODict (renumber (S (S (S (length h)))) its)] ++
               (ODict <$> nested.*2) ++ [OList ex])
            (VRef (S (S (length h)))) =
          Some (renumber (S (S (S (length h)))) its)) as ->.
  { unfold dict_at.
    change ([ODict sf; OList ds;
             ODict (renumber (S (S (S (length h)))) its)] ++
              (ODict <$> nested.*2) ++ [OList ex])
      with ([ODict sf; OList ds] ++
              ODict (renumber (S (S (S (length h)))) its) ::
              (ODict <$> nested.*2) ++ [OList ex]).
    rewrite app_assoc.
    replace (S (S (length h))) with (length (h ++ [ODict sf; OList ds]))
      by (rewrite length_app; cbn; lia).
    by rewrite lookup_fresh. }
  rewrite renumber_address_list. cbn.
  apply NoDup_cons. split.
  { rewrite elem_of_cons, elem_of_seq. lia. }
  apply NoDup_cons. split; [|apply NoDup_seq].
  rewrite elem_of_seq. lia.
Qed.

Lemma clone_mapping_objects_distinct_witness :
  ∃ c h', run (clone Example.blog) Example.blog_heap = (Ok c, h') ∧
          NoDup (mapping_objects h' c).
Proof.
  apply (clone_mapping_objects_distinct Example.blog_heap Example.blog).
  split.
  - eexists. reflexivity.
  - eexists. reflexivity.
  - intros its [= <-]. apply (bool_decide_unpack _). vm_compute. exact I.
  - eexists. reflexivity.
  - eexists. reflexivity.
Defined.

(** ** [clone]: the sequences *)

Lemma py_iter_insert_other (g : heap) (v : value) (b : addr) (o : object)
  (xs : list value) :
  outcome (py_iter v) g = Ok xs →
  (∀ a, v = VRef a → a ≠ b) →
  outcome (py_iter v) (<[b := o]> g) = Ok xs.
Proof.
  destruct v as [| |a]; try done. intros Hxs Hne.
  unfold outcome, py_iter, bind, load in *.
  rewrite list_lookup_insert_ne by (intros <-; by eapply Hne).
  by destruct (g !! a) as [[]|].
Qed.

(** A list and a copy of what it yields, at different addresses:
    appending to either leaves what the other yields. *)
Lemma list_copy_independent (g : heap) (orig : value) (b : addr)
  (xs : list value) :
  outcome (py_iter orig) g = Ok xs →
  g !! b = Some (OList xs) →
  (∀ a, orig = VRef a → a ≠ b) →
  (∀ v, outcome (py_append (VRef b) v;;; py_iter orig) g = Ok xs) ∧
  (∀ a v, orig = VRef a → g !! a = Some (OList xs) →
          outcome (py_append orig v;;; py_iter (VRef b)) g = Ok xs).
Proof.
  intros Hxs Hb Hne. split.
  - intros v. unfold outcome.
    match goal with |- (?m g).1 = _ => change (m g) with (run m g) end.
    rewrite run_bind, (py_append_at _ _ _ _ Hb).
    by apply py_iter_insert_other.
  - intros a v -> Ha. unfold outcome.
    match goal with |- (?m g).1 = _ => change (m g) with (run m g) end.
    rewrite run_bind, (py_append_at _ _ _ _ Ha).
    apply py_iter_list. rewrite list_lookup_insert_ne; [done|by apply Hne].
Qed.

Lemma clone_object_at (h : heap) (pre post : heap) (o : object) (a : addr) :
  a = (length h + length pre)%nat →
  (h ++ pre ++ o :: post) !! a = Some o.
Proof.
  intros ->. rewrite app_assoc, <- length_app. apply lookup_fresh.
Qed.

(** The clone's [default_sort_by] is a new list with the elements the
    original's yields, in their order: the same [DefaultSort] instances.
    Appending to the clone's list leaves the original's defaults as they
    are, and appending to the original's list leaves the clone's. *)
Theorem clone_default_sorts_copied (h : heap) (s : LoaderSpec)
  (ds : list value) :
  spec_ok h s →
  outcome (py_iter (default_sort_by s)) h = Ok ds →
  ∃ c h',
    run (clone s) h = (Ok c, h') ∧
    outcome (py_iter (default_sort_by c)) h' = Ok ds ∧
    default_sort_by c ≠ default_sort_by s ∧
    (∀ v, outcome (py_append (default_sort_by c) v;;;
                   py_iter (default_sort_by s)) h' = Ok ds) ∧
    (∀ a v, default_sort_by s = VRef a → h !! a = Some (OList ds) →
            outcome (py_append (default_sort_by s) v;;;
                     py_iter (default_sort_by c)) h' = Ok ds).
Proof.
  intros Hok Hds.
  destruct (clone_objects h s Hok)
    as (sf & ds' & its & nested & ex & _ & Hds' & _ & _ & _ & _ & _ & Hrun).
  rewrite Hds in Hds'. injection Hds' as <-.
  eexists _, _. split; [exact Hrun|].
  cbn [default_sort_by].
  set (h' := h ++ _).
  assert (h' !! S (length h) = Some (OList ds)) as Hnew.
  { unfold h'. apply (clone_object_at h [ODict sf]). cbn. lia. }
  assert (outcome (py_iter (default_sort_by s)) h' = Ok ds) as Hold
    by by apply py_iter_app.
  assert (∀ a, default_sort_by s = VRef a → a ≠ S (length h)) as Hne.
  { intros a Ha. rewrite Ha in Hds. apply py_iter_allocated in Hds. lia. }
  destruct (list_copy_independent h' _ _ _ Hold Hnew Hne) as [H1 H2].
  split_and!.
  - by apply py_iter_list.
  - intros Heq. symmetry in Heq. by apply Hne in Heq.
  - exact H1.
  - intros a v Ha Hlist. apply (H2 a); [done|].
    unfold h'. by apply lookup_app_l_Some.
Qed.

Lemma clone_default_sorts_copied_witness :
  ∃ c h',
    run (clone Example.blog) Example.blog_heap = (Ok c, h') ∧
    outcome (py_iter (default_sort_by c)) h' = Ok [VRef 4%nat] ∧
    default_sort_by c ≠ default_sort_by Example.blog ∧
    (∀ v, outcome (py_append (default_sort_by c) v;;;
                   py_iter (default_sort_by Example.blog)) h' =
          Ok [VRef 4%nat]) ∧
    (∀ a v, default_sort_by Example.blog = VRef a →
            Example.blog_heap !! a = Some (OList [VRef 4%nat]) →
            outcome (py_append (default_sort_by Example.blog) v;;;
                     py_iter (default_sort_by c)) h' = Ok [VRef 4%nat]).
Proof.
  apply (clone_default_sorts_copied Example.blog_heap Example.blog [VRef 4%nat]).
  - split.
    + eexists. reflexivity.
    + eexists. reflexivity.
    + intros its [= <-]. apply (bool_decide_unpack _). vm_compute. exact I.
    + eexists. reflexivity.
    + eexists. reflexivity.
  - reflexivity.
Defined.

(** When [extensions] is a sequence, as its annotation has it, the
    clone's [extensions] is a new list with the same elements in the
    same order, and appending to either list leaves the other. *)
Theorem clone_extensions_of_list (h : heap) (s : LoaderSpec) (a : addr)
  (xs : list value) :
  spec_ok h s →
  extensions s = VRef a →
  h !! a = Some (OList xs) →
  ∃ c h',
    run (clone s) h = (Ok c, h') ∧
    outcome (py_iter (extensions c)) h' = Ok xs ∧
    extensions c ≠ extensions s ∧
    (∀ v, outcome (py_append (extensions c) v;;;
                   py_iter (extensions s)) h' = Ok xs) ∧
    (∀ v, outcome (py_append (extensions s) v;;;
                   py_iter (extensions c)) h' = Ok xs).
Proof.
  intros Hok Hext Ha.
  destruct (clone_objects h s Hok)
    as (sf & ds & its & nested & ex & _ & _ & _ & _ & Hlen & _ & Hex & Hrun).
  assert (outcome (py_iter (extensions s)) h = Ok xs) as Hxs.
  { rewrite Hext. by apply py_iter_list. }
  rewrite Hxs in Hex. injection Hex as <-.
  eexists _, _. split; [exact Hrun|].
  cbn [extensions].
  set (h' := h ++ _).
  assert (h' !! S (S (S (length h + length its))) = Some (OList xs)) as Hnew.
  { unfold h'.
    change ([ODict sf; OList ds;
             ODict (renumber (S (S (S (length h)))) its)] ++
              (ODict <$> nested.*2) ++ [OList xs])
      with (([ODict sf; OList ds;
              ODict (renumber (S (S (S (length h)))) its)] ++
               (ODict <$> nested.*2)) ++ [OList xs]).
    rewrite <- app_assoc.
    apply (clone_object_at h
             ([ODict sf; OList ds;
               ODict (renumber (S (S (S (length h)))) its)] ++
                (ODict <$> nested.*2))).
    rewrite length_app, !length_fmap. cbn. lia. }
  assert (outcome (py_iter (extensions s)) h' = Ok xs) as Hold
    by by apply py_iter_app.
  assert (∀ a', extensions s = VRef a' →
                a' ≠ S (S (S (length h + length its)))) as Hne.
  { intros a' Ha'. rewrite Ha' in Hxs. apply py_iter_allocated in Hxs. lia. }
  destruct (list_copy_independent h' _ _ _ Hold Hnew Hne) as [H1 H2].
  split_and!.
  - by apply py_iter_list.
  - intros Heq. symmetry in Heq. by apply Hne in Heq.
  - exact H1.
  - intros v. apply (H2 a); [done|].
    unfold h'. by apply lookup_app_l_Some.
Qed.

Lemma clone_extensions_of_list_witness :
  ∃ c h',
    run (clone Example.blog_listed) Example.blog_heap = (Ok c, h') ∧
    outcome (py_iter (extensions c)) h' = Ok [VStr "with_author"] ∧
    extensions c ≠ extensions Example.blog_listed ∧
    (∀ v, outcome (py_append (extensions c) v;;;
                   py_iter (extensions Example.blog_listed)) h' =
          Ok [VStr "with_author"]) ∧
    (∀ v, outcome (py_append (extensions Example.blog_listed) v;;;
                   py_iter (extensions c)) h' = Ok [VStr "with_author"]).
Proof.
  apply (clone_extensions_of_list Example.blog_heap Example.blog_listed
           11%nat [VStr "with_author"]).
  - split.
    + eexists. reflexivity.
    + eexists. reflexivity.
    + intros its [= <-]. apply (bool_decide_unpack _). vm_compute. exact I.
    + eexists. reflexivity.
    + eexists. reflexivity.
  - reflexivity.
  - reflexivity.
Defined.

(** In the store with the shared operator dictionary: an operator added
    under ["title"] shows under ["subtitle"] in the original, and does
    not in the clone. *)
Example clone_separates_shared_operators :
  outcome (ops <- py_getitem (filterable_fields Example.shared) "title";;
           py_setitem ops "lt" (VRef 0%nat);;;
           ops' <- py_getitem (filterable_fields Example.shared) "subtitle";;
           py_getitem ops' "lt") Example.shared_heap = Ok (VRef 0%nat) ∧
  outcome (c <- clone Example.shared;;
           ops <- py_getitem (filterable_fields c) "title";;
           py_setitem ops "lt" (VRef 0%nat);;;
           ops' <- py_getitem (filterable_fields c) "subtitle";;
           py_getitem ops' "lt") Example.shared_heap = Raise (KeyError "lt").
Proof. split; reflexivity. Qed.

(** ** [clone] keeps specs well-formed *)

(** A well-formed spec stays well-formed when objects are added. *)
Lemma spec_ok_app (h ext : heap) (s : LoaderSpec) :
  spec_ok h s → spec_ok (h ++ ext) s.
Proof.
  intros Hok.
  destruct (views_agree h (h ++ ext) s) as (Hsv & Hfv & _).
  { intros a Ha. apply mapping_objects_allocated in Ha; [|apply Hok..].
    by rewrite lookup_app_l. }
  destruct Hok as [Hs Hf Hnd [ds Hds] [ex Hex]].
  split.
  - by rewrite Hsv.
  - by rewrite Hfv.
  - intros its Hits. apply Hnd.
    destruct Hf as [nested Hf]. unfold filterable_view, nested_at in Hf.
    destruct (dict_at h (filterable_fields s)) as [its0|] eqn:H0; [|done].
    by rewrite (dict_at_app _ ext _ _ H0) in Hits.
  - exists ds. by apply py_iter_app.
  - exists ex. by apply py_iter_app.
Qed.

Lemma clone_spec_ok (h : heap) (s : LoaderSpec) :
  spec_ok h s →
  ∃ c ext,
    run (clone s) h = (Ok c, h ++ ext) ∧ spec_ok (h ++ ext) c ∧
    spec_ok (h ++ ext) s ∧
    sortable_view (h ++ ext) c = sortable_view h s ∧
    filterable_view (h ++ ext) c = filterable_view h s ∧
    ∃ names, outcome (py_iter (extensions s)) h = Ok names ∧
             outcome (py_iter (extensions c)) (h ++ ext) = Ok names.
Proof.
  intros Hok.
  destruct (clone_layout h s Hok)
    as (c & ext & Hrun & Hsv & Hfv & _ & names & Hnames & Hload).
  assert (outcome (py_iter (extensions c)) (h ++ ext) = Ok names) as Hiter.
  { unfold outcome, py_iter, bind in *.
    destruct (extensions c) as [| |a]; try done.
    destruct (load (VRef a) (h ++ ext)) as [[o|e] g]; cbn in *; [|done].
    by injection Hload as ->. }
  exists c, ext. split; [exact Hrun|].
  split; [|split; [by apply spec_ok_app|split_and!; [done..|by exists names]]].
  clear Hnames.
  destruct (clone_objects h s Hok)
    as (sf & ds & its & nested & ex & _ & _ & _ & _ & _ & Hnd & _ & Hrun').
  rewrite Hrun in Hrun'. injection Hrun' as Hc Hext.
  destruct Hok as [Hs Hf _ _ _].
  split.
  - by rewrite Hsv.
  - by rewrite Hfv.
  - intros its' Hits'. rewrite Hext, Hc in Hits'. cbn [filterable_fields] in Hits'.
    unfold dict_at in Hits'.
    assert ((h ++ [ODict sf; OList ds;
                   ODict (renumber (S (S (S (length h)))) its)] ++
               (ODict <$> nested.*2) ++ [OList ex]) !! S (S (length h)) =
            Some (ODict (renumber (S (S (S (length h)))) its))) as Htop.
    { apply (clone_object_at h [ODict sf; OList ds]). cbn. lia. }
    cbn [app] in Htop. rewrite Htop in Hits'.
    injection Hits' as <-. by rewrite renumber_keys.
  - exists ds. rewrite Hext, Hc. cbn [default_sort_by].
    apply py_iter_list. apply (clone_object_at h [ODict sf]). cbn. lia.
  - by exists names.
Qed.

(** The clone of a well-formed spec is well-formed in the store [clone]
    leaves, and so is the original: either can be cloned again. *)
Theorem clone_well_formed (h : heap) (s : LoaderSpec) :
  spec_ok h s →
  ∃ c h', run (clone s) h = (Ok c, h') ∧ spec_ok h' c ∧ spec_ok h' s.
Proof.
  intros Hok.
  destruct (clone_spec_ok h s Hok) as (c & ext & Hrun & Hc & Hs & _).
  by exists c, (h ++ ext).
Qed.

Lemma clone_well_formed_witness :
  ∃ c h', run (clone Example.blog) Example.blog_heap = (Ok c, h') ∧
          spec_ok h' c ∧ spec_ok h' Example.blog.
Proof.
  apply (clone_well_formed Example.blog_heap Example.blog).
  split.
  - eexists. reflexivity.
  - eexists. reflexivity.
  - intros its [= <-]. apply (bool_decide_unpack _). vm_compute. exact I.
  - eexists. reflexivity.
  - eexists. reflexivity.
Defined.



(* ===================================================================== *)
(** * Further properties of the SQLAlchemy builders                      *)
(* ===================================================================== *)

(** [set_page] on the simple builder, step by step.  When the query's
    [limit] raises, nothing has changed and [offset] is not called.
    When [limit] returns and [offset] raises, the exception reaches the
    caller and the builder keeps the limited query: the page is set by
    halves. *)
Theorem simple_set_page_steps {Select Session} `{!SelectLike Select}
  (page n : Z) (b : SASimpleLoaderBuilder Select Session) :
  run (set_page page n) b =
  match Select_limit (query_of b) n with
  | Raise e => (Raise e, b)
  | Ok q1 =>
      match Select_offset q1 (page * n) with
      | Ok q2 => (Ok tt, with_super (with_query q2 (super b)) b)
      | Raise e => (Raise e, with_super (with_query q1 (super b)) b)
      end
  end.
Proof.
  unfold set_page. rewrite run_bind, simple_set_limit_run.
  destruct (Select_limit (query_of b) n) as [q1|e]; [|done].
  rewrite simple_set_offset_run. destruct b as [[sp q ap] se].
  unfold query_of; cbn. by destruct (Select_offset q1 (page * n)).
Qed.

(** On the complex builder the window calls are lost: after any series
    of [set_offset], [set_limit] and [set_page] calls the builder is the
    one it was, and [build] returns what it would have returned without
    them. *)
Theorem complex_window_session_lost {Select Session}
  (calls : list call) (b : SAComplexLoaderBuilder Select Session) :
  Forall (λ c, is_window c = true) calls →
  session calls b = b ∧ run build (session calls b) = run build b.
Proof.
  intros Hcalls.
  assert (session calls b = b) as ->; [|done].
  induction Hcalls as [|c calls Hc _ IH]; [done|].
  cbn. destruct c; try done; exact IH.
Qed.

Lemma complex_window_session_lost_witness :
  session [SetLimit 10; SetOffset 20; SetPage 2 10] Probe.fresh_complex =
    Probe.fresh_complex ∧
  run build (session [SetLimit 10; SetOffset 20; SetPage 2 10]
               Probe.fresh_complex) = run build Probe.fresh_complex.
Proof.
  apply (complex_window_session_lost [SetLimit 10; SetOffset 20; SetPage 2 10]
           Probe.fresh_complex).
  repeat constructor.
Defined.

(** [build] on the complex builder asks the working query for its
    statement.  While the working query is a plain [BuiltQuery], whose
    [build_select] is not implemented, [build] raises
    [NotImplementedError] whatever window calls were made, and leaves
    the builder as it is. *)
Theorem complex_build_plain_query {Select Session}
  (calls : list call) (b : SAComplexLoaderBuilder Select Session) :
  query_of b = BuiltQuery_init →
  Forall (λ c, is_window c = true) calls →
  run build (session calls b) = (Raise NotImplementedError, b).
Proof.
  intros Hq Hcalls.
  assert (session calls b = b) as ->.
  { induction Hcalls as [|c calls Hc _ IH]; [done|].
    cbn. destruct c; try done; exact IH. }
  unfold build, SAComplex, complex_build, run, bind, get.
  unfold query_of in Hq. cbn in Hq. by rewrite Hq.
Qed.

Lemma complex_build_plain_query_witness :
  run build (session [SetPage 0 25; SetOffset 50] Probe.plain_complex) =
  (Raise NotImplementedError, Probe.plain_complex).
Proof.
  apply (complex_build_plain_query [SetPage 0 25; SetOffset 50]
           Probe.plain_complex).
  - reflexivity.
  - repeat constructor.
Defined.

(* ===================================================================== *)
(** * [clone] and extensions kept in a mapping                           *)
(* ===================================================================== *)

(** When [extensions] is a mapping, [clone] succeeds, the clone's
    [extensions] is the list of the mapping's keys in insertion order,
    the original still resolves every name, and on the clone no name
    resolves: subscripting its [extensions] with a name raises
    [TypeError]. *)
Theorem clone_keeps_extension_names (h : heap) (s : LoaderSpec)
  (items : list (string * value)) :
  spec_ok h s →
  dict_at h (extensions s) = Some items →
  ∃ c h',
    run (clone s) h = (Ok c, h') ∧
    outcome (py_iter (extensions c)) h' = Ok (VStr <$> keys items) ∧
    (∀ name v, items_get name items = Some v →
               outcome (py_getitem (extensions s) name) h' = Ok v) ∧
    (∀ name, outcome (py_getitem (extensions c) name) h' = Raise TypeError).
Proof.
  intros Hok Hitems.
  destruct (clone_layout h s Hok)
    as (c & ext & Hrun & _ & _ & _ & names & Hnames & Hload).
  exists c, (h ++ ext). split; [done|].
  pose proof (dict_at_app h ext _ _ Hitems) as Hitems'.
  apply dict_at_allocated in Hitems as (a & Hv & Ha & _).
  apply dict_at_allocated in Hitems' as (a' & Hv' & Ha' & _).
  rewrite Hv in Hnames. unfold outcome, py_iter, bind in Hnames.
  rewrite (load_ref _ _ _ Ha) in Hnames. cbn in Hnames.
  injection Hnames as <-. split_and!.
  - unfold outcome, py_iter, bind in *.
    destruct (extensions c) as [| |b]; try done.
    destruct (load (VRef b) (h ++ ext)) as [[o|e] g]; cbn in *; [|done].
    by injection Hload as ->.
  - intros name v Hget. rewrite Hv'. unfold outcome, py_getitem, bind.
    rewrite (load_ref _ _ _ Ha'). by rewrite Hget.
  - intros name. unfold outcome, py_getitem, bind in *.
    destruct (load (extensions c) (h ++ ext)) as [[o|e] g]; cbn in *; [|done].
    by injection Hload as ->.
Qed.

Lemma clone_keeps_extension_names_witness :
  ∃ c h',
    run (clone Example.blog) Example.blog_heap = (Ok c, h') ∧
    outcome (py_iter (extensions c)) h' =
      Ok (VStr <$> keys [("with_author", VRef 3%nat)]) ∧
    (∀ name v, items_get name [("with_author", VRef 3%nat)] = Some v →
               outcome (py_getitem (extensions Example.blog) name) h' = Ok v) ∧
    (∀ name, outcome (py_getitem (extensions c) name) h' = Raise TypeError).
Proof.
  apply (clone_keeps_extension_names Example.blog_heap Example.blog
           [("with_author", VRef 3%nat)]).
  - split.
    + eexists. reflexivity.
    + eexists. reflexivity.
    + intros its [= <-]. apply (bool_decide_unpack _). vm_compute. exact I.
    + eexists. reflexivity.
    + eexists. reflexivity.
  - reflexivity.
Defined.
